(** * Axel's TCP layer (src/tcp.c): a shallow embedding and its properties

    The file models [tcp_error], [tcp_connect], [tcp_close] and [get_if_ip]
    of tcp.c as functions over an explicit operating-system state.  Every
    system call the C code issues is a function [world -> result * world];
    what the network, the resolver and the kernel answer is read from an
    [environment] of oracles indexed by the number of calls made so far, so
    the same call may fail now and succeed later. *)

From stdpp Require Import gmap strings list pretty.
From Stdlib Require Import ZArith Ascii.

Local Open Scope Z_scope.

(** ** Constants of the system headers (Linux values) *)

Module Sys.
Definition AF_UNSPEC : Z := 0.
Definition AF_INET : Z := 2.
Definition AF_INET6 : Z := 10.
Definition PF_INET : Z := 2.
Definition SOCK_STREAM : Z := 1.
Definition SOCK_DGRAM : Z := 2.
Definition IPPROTO_IP : Z := 0.
Definition AI_ADDRCONFIG : Z := 32.
Definition O_NONBLOCK : Z := 2048.
Definition SOL_SOCKET : Z := 1.
Definition SO_RCVTIMEO : Z := 20.
Definition SO_SNDTIMEO : Z := 21.
Definition EBADF : Z := 9.
Definition EINPROGRESS : Z := 115.
Definition IFNAMSIZ : nat := 16.
End Sys.
Import Sys.

(** ** Data *)

(** [struct sockaddr_in]: family, port and the 32-bit address as the
    little-endian host reads it (first octet in the low byte). *)
Record sockaddr_in := mk_sockaddr_in {
  sin_family : Z;
  sin_port : Z;
  sin_addr : Z
}.

(** One node of the list [getaddrinfo] returns; [ai_addr] is the opaque
    socket address (its bytes), [ai_addrlen] is its length. *)
Record addrinfo := mk_addrinfo {
  ai_family : Z;
  ai_socktype : Z;
  ai_protocol : Z;
  ai_addr : list Z
}.

(** Modelled from the spec: [tcp_t], declared in axel.h, which is not part
    of src/.  The spec's Connection has a raw transport handle, an optional
    secure session and an address-family tag; these are the three fields
    tcp.c reads and writes ([fd], [ai_family], and [ssl] in a build with
    HAVE_SSL, [None] being the NULL pointer). *)
Record tcp_t := mk_tcp {
  tcp_fd : Z;
  tcp_ai_family : Z;
  tcp_ssl : option nat
}.

#[global] Instance sockaddr_in_eq_dec : EqDecision sockaddr_in.
Proof. solve_decision. Defined.

(** ** The system-call log *)

Inductive call :=
| Socket (family type protocol : Z)
| Bind (fd : Z) (addr : sockaddr_in)
| SetFl (fd flags : Z)
| Connect (fd : Z) (addr : list Z)
| Select (fd tv_sec : Z)
| Close (fd : Z)
| SetSockOpt (fd optname tv_sec : Z)
| Ioctl (fd : Z) (ifr_name : string)
| SslConnect (fd : Z) (hostname : string)
| SslDisconnect (session : nat).

(** What a call answered: its return value, or -1 with the [errno] it set. *)
Inductive answer :=
| Ret (v : Z)
| Err (e : Z).

Record event := Ev { ev_call : call; ev_answer : answer }.

#[global] Instance call_eq_dec : EqDecision call.
Proof. solve_decision. Defined.
#[global] Instance answer_eq_dec : EqDecision answer.
Proof. solve_decision. Defined.
#[global] Instance event_eq_dec : EqDecision event.
Proof. solve_decision. Defined.

(** The [errno] of the last failed call of a log, if any call failed. *)
Fixpoint last_errno (evs : list event) : option Z :=
  match evs with
  | [] => None
  | Ev _ a :: rest =>
      match last_errno rest with
      | Some e => Some e
      | None => match a with Err e => Some e | Ret _ => None end
      end
  end.

(** ** The operating-system state *)

Record world := mk_world {
  fds : gset Z;          (* the open descriptors of the process *)
  nonblock : gset Z;     (* those with O_NONBLOCK set *)
  sessions : gset nat;   (* the live TLS sessions *)
  errno : Z;
  trace : list event     (* every call so far, oldest first *)
}.

(** Time, for the oracles: the number of calls made so far. *)
Definition clock (w : world) : nat := length (trace w).

(** The calls a later world made since an earlier one. *)
Definition events_since (w w' : world) : list event :=
  drop (clock w) (trace w').

(** ** What the outside world answers *)

Inductive gai_reply :=
| GaiFail (code : Z)                              (* a non-zero EAI_ code *)
| GaiOk (first : addrinfo) (rest : list addrinfo) (* 0 and a non-empty list *).

(** How the peer treats a handshake: it completes at once, it fails at once
    with an [errno], or it takes a while and then completes ([None]) or
    fails ([Some e]). *)
Inductive peer :=
| Accepts
| Rejects (e : Z)
| Slow (eventual : option Z).

Inductive wait_reply :=
| Writable
| TimedOut
| WaitFail (e : Z).

Record environment := mk_env {
  resolver : string -> string -> Z -> Z -> Z -> Z -> gai_reply;
  gai_strerror : Z -> string;
  strerror : Z -> string;
  inet_addr : string -> Z;
  socket_fault : nat -> Z -> Z -> Z -> option Z;
  bind_fault : nat -> Z -> sockaddr_in -> option Z;
  peer_of : nat -> list Z -> peer;
  wait_of : nat -> Z -> Z -> wait_reply;
  ifaddr_of : nat -> string -> Z + Z;
  tls_of : nat -> Z -> string -> string + nat
}.

(** The [errno] a peer can make [connect] fail with. *)
Definition peer_errno (p : peer) : option Z :=
  match p with
  | Accepts => None
  | Rejects e => Some e
  | Slow eventual => eventual
  end.

(** POSIX: EINPROGRESS is the answer of [connect] on a non-blocking socket
    whose handshake is in flight, and never the reason a handshake fails. *)
Definition posix_connect (E : environment) : Prop :=
  ∀ t a, peer_errno (peer_of E t a) ≠ Some EINPROGRESS.

(** ** The kernel *)

(** POSIX hands out the lowest descriptor that is not open. *)
Fixpoint lowest_from (fuel : nat) (n : Z) (X : gset Z) : Z :=
  match fuel with
  | O => n
  | S f => if decide (n ∈ X) then lowest_from f (n + 1) X else n
  end.

Definition lowest_free (X : gset Z) : Z := lowest_from (size X) 0 X.

(** A call succeeded: it is logged, [errno] is left alone. *)
Definition logged (c : call) (v : Z) (w : world) : world :=
  mk_world (fds w) (nonblock w) (sessions w) (errno w)
           (trace w ++ [Ev c (Ret v)]).

(** A call failed: it is logged and sets [errno]. *)
Definition failed (c : call) (e : Z) (w : world) : world :=
  mk_world (fds w) (nonblock w) (sessions w) e
           (trace w ++ [Ev c (Err e)]).

Definition with_fds (X : gset Z) (w : world) : world :=
  mk_world X (nonblock w) (sessions w) (errno w) (trace w).

Definition with_nonblock (X : gset Z) (w : world) : world :=
  mk_world (fds w) X (sessions w) (errno w) (trace w).

Definition with_sessions (X : gset nat) (w : world) : world :=
  mk_world (fds w) (nonblock w) X (errno w) (trace w).

(** [socket(family, type, protocol)]: a fresh blocking descriptor, or -1. *)
Definition sys_socket (E : environment) (family type protocol : Z)
    (w : world) : Z * world :=
  match socket_fault E (clock w) family type protocol with
  | Some e => (-1, failed (Socket family type protocol) e w)
  | None =>
      let fd := lowest_free (fds w) in
      (fd, logged (Socket family type protocol) fd
             (with_nonblock (nonblock w ∖ {[fd]})
                (with_fds ({[fd]} ∪ fds w) w)))
  end.

(** [bind(fd, &addr, sizeof addr)]. *)
Definition sys_bind (E : environment) (fd : Z) (addr : sockaddr_in)
    (w : world) : Z * world :=
  match bind_fault E (clock w) fd addr with
  | Some e => (-1, failed (Bind fd addr) e w)
  | None => (0, logged (Bind fd addr) 0 w)
  end.

(** [fcntl(fd, F_SETFL, flags)]: only O_NONBLOCK is of interest. *)
Definition sys_setfl (fd flags : Z) (w : world) : world :=
  logged (SetFl fd flags) 0
    (with_nonblock
       (if Z.testbit flags 11 then {[fd]} ∪ nonblock w
        else nonblock w ∖ {[fd]}) w).

(** [connect(fd, addr, addrlen)].  A blocking socket waits for a slow
    handshake and reports how it ended; a non-blocking one answers
    EINPROGRESS for it. *)
Definition sys_connect (E : environment) (fd : Z) (addr : list Z)
    (w : world) : Z * world :=
  match peer_of E (clock w) addr with
  | Accepts => (0, logged (Connect fd addr) 0 w)
  | Rejects e => (-1, failed (Connect fd addr) e w)
  | Slow eventual =>
      if decide (fd ∈ nonblock w)
      then (-1, failed (Connect fd addr) EINPROGRESS w)
      else match eventual with
           | None => (0, logged (Connect fd addr) 0 w)
           | Some e => (-1, failed (Connect fd addr) e w)
           end
  end.

(** [select(fd + 1, NULL, {fd}, NULL, &tout)]: 1 when [fd] became writable,
    0 when the time ran out, -1 on failure. *)
Definition sys_select (E : environment) (fd tv_sec : Z)
    (w : world) : Z * world :=
  match wait_of E (clock w) fd tv_sec with
  | Writable => (1, logged (Select fd tv_sec) 1 w)
  | TimedOut => (0, logged (Select fd tv_sec) 0 w)
  | WaitFail e => (-1, failed (Select fd tv_sec) e w)
  end.

(** [close(fd)]: releases an open descriptor; EBADF for any other. *)
Definition sys_close (fd : Z) (w : world) : world :=
  if decide (fd ∈ fds w)
  then logged (Close fd) 0
         (with_nonblock (nonblock w ∖ {[fd]}) (with_fds (fds w ∖ {[fd]}) w))
  else failed (Close fd) EBADF w.

(** [setsockopt(fd, SOL_SOCKET, optname, &tout, sizeof tout)]. *)
Definition sys_setsockopt (fd optname tv_sec : Z) (w : world) : world :=
  logged (SetSockOpt fd optname tv_sec) 0 w.

(** [ioctl(fd, SIOCGIFADDR, &ifr)]: 0 and the interface's IPv4 address, or
    -1 and the request left as it was (its address zeroed by memset). *)
Definition sys_ioctl_ifaddr (E : environment) (fd : Z) (ifr_name : string)
    (w : world) : Z * Z * world :=
  match ifaddr_of E (clock w) ifr_name with
  | inl e => (-1, 0, failed (Ioctl fd ifr_name) e w)
  | inr a => (0, a, logged (Ioctl fd ifr_name) 0 w)
  end.

(** ** The TLS layer *)

(** Modelled from the spec: [ssl_connect] of ssl.c, which is not part of
    src/.  It performs the handshake over the connected descriptor and
    returns the session, or NULL after writing the reason of the failure to
    [message]; it does not close the raw socket itself. *)
Definition ssl_connect (E : environment) (fd : Z) (hostname message : string)
    (w : world) : option nat * string * world :=
  match tls_of E (clock w) fd hostname with
  | inl reason => (None, reason, logged (SslConnect fd hostname) 0 w)
  | inr s =>
      (Some s, message,
       logged (SslConnect fd hostname) 1
         (with_sessions ({[s]} ∪ sessions w) w))
  end.

(** Modelled from the spec: [ssl_disconnect] of ssl.c, which is not part of
    src/.  It tears the session down; closing the raw transport is a
    separate step that the spec gives to the caller. *)
Definition ssl_disconnect (s : nat) (w : world) : world :=
  logged (SslDisconnect s) 0 (with_sessions (sessions w ∖ {[s]}) w).

(** ** tcp.c *)

Definition newline : string := String (ascii_of_nat 10) EmptyString.

(** The arguments of a [printf]-style call. *)
Inductive fmt_arg :=
| ArgS (s : string)
| ArgI (i : Z).

(** [sprintf] for the conversions tcp.c uses: [%s], and [%i] or [%d] for a
    signed decimal.  Any other conversion is copied as it stands. *)
Fixpoint sprintf (fmt : string) (args : list fmt_arg) : string :=
  match fmt with
  | EmptyString => EmptyString
  | String "%"%char (String c rest) =>
      match c, args with
      | "s"%char, ArgS s :: args' => s +:+ sprintf rest args'
      | "i"%char, ArgI i :: args' => pretty i +:+ sprintf rest args'
      | "d"%char, ArgI i :: args' => pretty i +:+ sprintf rest args'
      | _, _ => String "%"%char (String c (sprintf rest args))
      end
  | String c rest => String c (sprintf rest args)
  end.

(** Modelled from the spec: the macro [_] of axel.h, which is not part of
    src/.  The spec gives the message in the words of the format string, so
    the macro hands its argument back untranslated. *)
Definition gettext (msgid : string) : string := msgid.

(** [tcp_error]: what [sprintf] leaves in [buffer]. *)
Definition tcp_error (hostname : string) (port : Z) (reason : string)
    : string :=
  sprintf (gettext ("Unable to connect to server %s:%i: %s" +:+ newline))
    [ArgS hostname; ArgI port; ArgS reason].

(** The C test [local_if && *local_if]. *)
Definition is_set (local_if : option string) : bool :=
  match local_if with
  | Some (String _ _) => true
  | _ => false
  end.

(** Lines 74-79: [local_addr] is zeroed, and filled in only when the
    connection record asks for IPv4. *)
Definition local_addr_of (E : environment) (tcp : tcp_t)
    (local_if : option string) : sockaddr_in :=
  if (tcp_ai_family tcp =? AF_INET) && is_set local_if
  then mk_sockaddr_in AF_INET 0 (inet_addr E (default EmptyString local_if))
  else mk_sockaddr_in 0 0 0.

(** The variables of the candidate loop. *)
Record attempt := mk_attempt {
  sock_fd : Z;
  gai_result : list addrinfo;   (* the node [gai_result] points to, and on *)
  now : world
}.

(** Lines 99-144: one turn of the loop, [gai_result] pointing to [ai]
    followed by [next]. *)
Definition connect_step (E : environment) (local_if : option string)
    (local_addr : sockaddr_in) (io_timeout : Z)
    (ai : addrinfo) (next : list addrinfo) (w : world) : attempt :=
  let '(fd, w) :=
    sys_socket E (ai_family ai) (ai_socktype ai) (ai_protocol ai) w in
  if fd =? -1 then mk_attempt fd (ai :: next) w
  else
    let bound :=
      if (ai_family ai =? AF_INET) && is_set local_if then
        let '(ret, w) := sys_bind E fd local_addr w in
        if ret =? -1
        then mk_attempt (-1) next (sys_close fd w)
        else mk_attempt fd (ai :: next) w
      else mk_attempt fd (ai :: next) w in
    if sock_fd bound =? -1 then bound
    else
      let w := now bound in
      let w := if io_timeout =? 0 then w else sys_setfl fd O_NONBLOCK w in
      let '(ret, w) := sys_connect E fd (ai_addr ai) w in
      let '(ret, w) :=
        if (ret =? -1) && (errno w =? EINPROGRESS)
        then sys_select E fd io_timeout w
        else (ret, w) in
      if ret =? -1
      then mk_attempt (-1) next (sys_close fd w)
      else mk_attempt fd (ai :: next) (sys_setfl fd 0 w).

(** Lines 97-145: [while ((sock_fd == -1) && (gai_result != NULL))].
    [None] when the fuel runs out before the loop ends. *)
Fixpoint connect_loop (fuel : nat) (E : environment)
    (local_if : option string) (local_addr : sockaddr_in) (io_timeout : Z)
    (st : attempt) : option attempt :=
  match gai_result st with
  | [] => Some st
  | ai :: next =>
      if sock_fd st =? -1 then
        match fuel with
        | O => None
        | S f =>
            connect_loop f E local_if local_addr io_timeout
              (connect_step E local_if local_addr io_timeout ai next (now st))
        end
      else Some st
  end.

(** What [tcp_connect] returns and leaves behind. *)
Record result := mk_result {
  ret : Z;
  tcp_after : tcp_t;
  message_after : string;
  world_after : world
}.

(** Lines 162-169: record the descriptor and set the I/O timeouts. *)
Definition connected (tcp : tcp_t) (fd : Z) (message : string)
    (io_timeout : Z) (w : world) : result :=
  let tcp := mk_tcp fd (tcp_ai_family tcp) (tcp_ssl tcp) in
  let w := sys_setsockopt fd SO_RCVTIMEO io_timeout w in
  let w := sys_setsockopt fd SO_SNDTIMEO io_timeout w in
  mk_result 1 tcp message w.

(** Lines 149-169, after the loop has left [sock_fd] and the world in
    [st]. *)
Definition after_loop (E : environment) (HAVE_SSL : bool) (tcp : tcp_t)
    (hostname : string) (port secure : Z) (message : string)
    (io_timeout : Z) (st : attempt) : result :=
  let fd := sock_fd st in
  let w := now st in
  if fd =? -1
  then mk_result (-1) tcp (tcp_error hostname port (strerror E (errno w))) w
  else if HAVE_SSL && negb (secure =? 0) then
    let '(ssl, message, w) := ssl_connect E fd hostname message w in
    let tcp := mk_tcp (tcp_fd tcp) (tcp_ai_family tcp) ssl in
    match ssl with
    | None => mk_result (-1) tcp message (sys_close fd w)
    | Some _ => connected tcp fd message io_timeout w
    end
  else connected tcp fd message io_timeout w.

(** [snprintf(portstr, portstr_len, "%d", port)] with [portstr_len = 10]. *)
Definition portstr_of (port : Z) : string :=
  String.substring 0 9 (sprintf "%d" [ArgI port]).

(** [tcp_connect]: [None] when the candidate loop does not end within
    [fuel] turns. *)
Definition tcp_connect (fuel : nat) (E : environment) (HAVE_SSL : bool)
    (tcp : tcp_t) (hostname : string) (port secure : Z)
    (local_if : option string) (message : string) (io_timeout : Z)
    (w : world) : option result :=
  let local_addr := local_addr_of E tcp local_if in
  match resolver E hostname (portstr_of port) (tcp_ai_family tcp)
          SOCK_STREAM AI_ADDRCONFIG 0 with
  | GaiFail code =>
      Some (mk_result (-1) tcp
              (tcp_error hostname port (gai_strerror E code)) w)
  | GaiOk first rest =>
      match connect_loop fuel E local_if local_addr io_timeout
              (mk_attempt (-1) (first :: rest) w) with
      | None => None
      | Some st =>
          Some (after_loop E HAVE_SSL tcp hostname port secure message
                  io_timeout st)
      end
  end.

(** [tcp_close].  Without HAVE_SSL the record has no session slot and the
    descriptor is always closed. *)
Definition tcp_close (HAVE_SSL : bool) (tcp : tcp_t) (w : world)
    : tcp_t * world :=
  if 0 <? tcp_fd tcp then
    match (if HAVE_SSL then tcp_ssl tcp else None) with
    | Some s =>
        (mk_tcp (-1) (tcp_ai_family tcp) None, ssl_disconnect s w)
    | None =>
        (mk_tcp (-1) (tcp_ai_family tcp) (tcp_ssl tcp),
         sys_close (tcp_fd tcp) w)
    end
  else (tcp, w).

(** [inet_ntoa]: the four octets in memory order, in decimal. *)
Definition inet_ntoa (a : Z) : string :=
  pretty (Z.land a 255) +:+ "." +:+
  pretty (Z.land (Z.shiftr a 8) 255) +:+ "." +:+
  pretty (Z.land (Z.shiftr a 16) 255) +:+ "." +:+
  pretty (Z.land (Z.shiftr a 24) 255).

(** [get_if_ip]: the return value, the caller's [ip] buffer and the world
    it leaves. *)
Definition get_if_ip (E : environment) (iface ip : string) (w : world)
    : Z * string * world :=
  let '(fd, w) := sys_socket E PF_INET SOCK_DGRAM IPPROTO_IP w in
  if fd <? 0 then (0, ip, w)
  else
    let ifr_name := String.substring 0 (IFNAMSIZ - 1) iface in
    let '(r, addr, w) := sys_ioctl_ifaddr E fd ifr_name w in
    let ret := if r =? 0 then 1 else 0 in
    let ip := if ret =? 0 then ip else inet_ntoa addr in
    (ret, ip, sys_close fd w).

(** ** Vocabulary of the statements *)

(** The switch of a descriptor to non-blocking mode alone. *)
Definition nonblock_switch (c : call) : bool :=
  match c with
  | SetFl _ flags => Z.testbit flags 11
  | _ => false
  end.

(** The calls that impose a deadline on the connect phase: switching a
    descriptor to non-blocking mode, and the bounded wait. *)
Definition deadline_call (c : call) : bool :=
  match c with
  | SetFl _ flags => Z.testbit flags 11
  | Select _ _ => true
  | _ => false
  end.

(** None of the calls [evs] satisfies [p]. *)
Definition free_of (p : call → bool) (evs : list event) : Prop :=
  Forall (λ ev, p (ev_call ev) = false) evs.

(** [w'] is [w] after the calls [evs]: they were appended to the log, and
    [errno] is the one of the last call that failed, if any did. *)
Definition ran (w w' : world) (evs : list event) : Prop :=
  trace w' = trace w ++ evs ∧
  errno w' = default (errno w) (last_errno evs).

(** The secure branch of [tcp_close] as the design document words it: the
    session is torn down, then the raw descriptor is closed. *)
Definition torn_down_then_closed (tcp : tcp_t) (w w' : world) : Prop :=
  ∃ s, tcp_ssl tcp = Some s ∧
       events_since w w' =
       [Ev (SslDisconnect s) (Ret 0); Ev (Close (tcp_fd tcp)) (Ret 0)].

(** ** Concrete systems, for the examples *)

Module Scenario.

(** A process with only its standard streams open. *)
Definition boot : world := mk_world {[0; 1; 2]} ∅ ∅ 0 [].

(** The same process holding descriptor 3 under TLS session 1. *)
Definition secured : world := mk_world {[0; 1; 2; 3]} ∅ {[1%nat]} 0 [].

(** An IPv4 endpoint 192.0.2.x, port 80, as a [sockaddr_in] image. *)
Definition v4 (x : Z) : addrinfo :=
  mk_addrinfo AF_INET SOCK_STREAM 6 [2; 0; 0; 80; 192; 0; 2; x].

(** 192.168.1.5 as [inet_addr] returns it on a little-endian host. *)
Definition lan_address : Z := 83994816.

(** A host with one address, a network where everything succeeds at
    once, and no interface that has an IPv4 address. *)
Definition calm : environment :=
  mk_env (λ _ _ _ _ _ _, GaiOk (v4 1) [])
         (λ _, "Name or service not known")
         (λ e, "errno " +:+ pretty e)
         (λ s, if String.eqb s "192.168.1.5" then lan_address
               else 4294967295)
         (λ _ _ _ _, None)
         (λ _ _ _, None)
         (λ _ _, Accepts)
         (λ _ _ _, Writable)
         (λ _ _, inl 19)
         (λ _ _ _, inr 1%nat).

Definition with_resolver
    (f : string → string → Z → Z → Z → Z → gai_reply) (E : environment)
    : environment :=
  mk_env f (gai_strerror E) (strerror E) (inet_addr E) (socket_fault E)
         (bind_fault E) (peer_of E) (wait_of E) (ifaddr_of E) (tls_of E).

Definition with_socket_fault (f : nat → Z → Z → Z → option Z)
    (E : environment) : environment :=
  mk_env (resolver E) (gai_strerror E) (strerror E) (inet_addr E) f
         (bind_fault E) (peer_of E) (wait_of E) (ifaddr_of E) (tls_of E).

Definition with_peer (f : nat → list Z → peer) (E : environment)
    : environment :=
  mk_env (resolver E) (gai_strerror E) (strerror E) (inet_addr E)
         (socket_fault E) (bind_fault E) f (wait_of E) (ifaddr_of E)
         (tls_of E).

Definition with_wait (f : nat → Z → Z → wait_reply) (E : environment)
    : environment :=
  mk_env (resolver E) (gai_strerror E) (strerror E) (inet_addr E)
         (socket_fault E) (bind_fault E) (peer_of E) f (ifaddr_of E)
         (tls_of E).

Definition with_tls (f : nat → Z → string → string + nat)
    (E : environment) : environment :=
  mk_env (resolver E) (gai_strerror E) (strerror E) (inet_addr E)
         (socket_fault E) (bind_fault E) (peer_of E) (wait_of E)
         (ifaddr_of E) f.

(** The handshake is in flight and never finishes within the timeout. *)
Definition stalled : environment :=
  with_wait (λ _ _ _, TimedOut) (with_peer (λ _ _, Slow None) calm).

(** The process has run out of descriptors (EMFILE). *)
Definition starved : environment :=
  with_socket_fault (λ _ _ _ _, Some 24) calm.

(** Two addresses; only the very first [socket] call fails. *)
Definition hiccup : environment :=
  with_socket_fault (λ t _ _ _, if t is O then Some 24 else None)
    (with_resolver (λ _ _ _ _ _ _, GaiOk (v4 1) [v4 2]) calm).

(** The peer answers late, but it answers. *)
Definition sluggish : environment :=
  with_peer (λ _ _, Slow None) calm.

(** The name does not resolve (EAI_NONAME). *)
Definition nameless : environment :=
  with_resolver (λ _ _ _ _ _ _, GaiFail (-2)) calm.

(** Two addresses, both refusing the connection (ECONNREFUSED). *)
Definition refusing : environment :=
  with_peer (λ _ _, Rejects 111)
    (with_resolver (λ _ _ _ _ _ _, GaiOk (v4 1) [v4 2]) calm).

(** The TLS handshake fails. *)
Definition untrusted : environment :=
  with_tls (λ _ _ _, inl "SSL error: certificate verify failed") calm.

(** A connection record that has not been connected yet. *)
Definition fresh_tcp (family : Z) : tcp_t := mk_tcp 0 family None.

End Scenario.

(** ** Vocabulary of the further properties *)

(** The addresses [connect] was called with, oldest first. *)
Fixpoint connect_addrs (evs : list event) : list (list Z) :=
  match evs with
  | [] => []
  | Ev (Connect _ a) _ :: rest => a :: connect_addrs rest
  | _ :: rest => connect_addrs rest
  end.

Definition is_bind (c : call) : bool :=
  match c with
  | Bind _ _ => true
  | _ => false
  end.

Definition is_tls (c : call) : bool :=
  match c with
  | SslConnect _ _ | SslDisconnect _ => true
  | _ => false
  end.

(** Every [bind] of the log [evs] was given the address [a]. *)
Definition binds_to (a : sockaddr_in) (evs : list event) : Prop :=
  Forall (λ ev, ∀ fd b, ev_call ev = Bind fd b → b = a) evs.

(** ** Reading and writing *)

(** The transfers [tcp_read] and [tcp_write] can ask for. *)
Inductive transfer :=
| RawRead (fd size : Z)
| RawWrite (fd : Z) (data : list Z)
| TlsRead (session : nat) (size : Z)
| TlsWrite (session : nat) (data : list Z).

(** What an established channel answers, by the number of transfers made
    so far: the bytes that arrived or the [errno] of [read], the count or
    the [errno] of [write], and the same for the TLS library, whose
    failures are return values that are not positive. *)
Record channel := mk_channel {
  read_of : nat → Z → Z → Z + list Z;
  write_of : nat → Z → list Z → Z + Z;
  tls_read_of : nat → nat → Z → Z + list Z;
  tls_write_of : nat → nat → list Z → Z
}.

(** The system, and the transfers made with what each returned. *)
Record wire := mk_wire {
  kernel : world;
  moved : list (transfer * Z)
}.

Definition with_errno (e : Z) (w : world) : world :=
  mk_world (fds w) (nonblock w) (sessions w) e (trace w).

(** The first bytes of [buffer] replaced by [got]. *)
Definition filled (got buffer : list Z) : list Z :=
  got ++ drop (length got) buffer.

(** [read(fd, buffer, size)]: EBADF unless [fd] is an open descriptor. *)
Definition sys_read (C : channel) (fd : Z) (buffer : list Z) (size : Z)
    (x : wire) : Z * list Z * wire :=
  let asked := RawRead fd size in
  if decide (0 ≤ fd ∧ fd ∈ fds (kernel x)) then
    match read_of C (length (moved x)) fd size with
    | inl e =>
        (-1, buffer,
         mk_wire (with_errno e (kernel x)) (moved x ++ [(asked, -1)]))
    | inr data =>
        let got := take (Z.to_nat size) data in
        let n := Z.of_nat (length got) in
        (n, filled got buffer, mk_wire (kernel x) (moved x ++ [(asked, n)]))
    end
  else
    (-1, buffer,
     mk_wire (with_errno EBADF (kernel x)) (moved x ++ [(asked, -1)])).

(** [write(fd, buffer, size)]: EBADF unless [fd] is an open descriptor. *)
Definition sys_write (C : channel) (fd : Z) (buffer : list Z) (size : Z)
    (x : wire) : Z * wire :=
  let asked := RawWrite fd (take (Z.to_nat size) buffer) in
  if decide (0 ≤ fd ∧ fd ∈ fds (kernel x)) then
    match write_of C (length (moved x)) fd (take (Z.to_nat size) buffer) with
    | inl e =>
        (-1, mk_wire (with_errno e (kernel x)) (moved x ++ [(asked, -1)]))
    | inr n => (n, mk_wire (kernel x) (moved x ++ [(asked, n)]))
    end
  else
    (-1, mk_wire (with_errno EBADF (kernel x)) (moved x ++ [(asked, -1)])).

(** [SSL_read(ssl, buffer, size)]. *)
Definition ssl_read (C : channel) (s : nat) (buffer : list Z) (size : Z)
    (x : wire) : Z * list Z * wire :=
  let asked := TlsRead s size in
  match tls_read_of C (length (moved x)) s size with
  | inl code =>
      (code, buffer, mk_wire (kernel x) (moved x ++ [(asked, code)]))
  | inr data =>
      let got := take (Z.to_nat size) data in
      let n := Z.of_nat (length got) in
      (n, filled got buffer, mk_wire (kernel x) (moved x ++ [(asked, n)]))
  end.

(** [SSL_write(ssl, buffer, size)]. *)
Definition ssl_write (C : channel) (s : nat) (buffer : list Z) (size : Z)
    (x : wire) : Z * wire :=
  let data := take (Z.to_nat size) buffer in
  let n := tls_write_of C (length (moved x)) s data in
  (n, mk_wire (kernel x) (moved x ++ [(TlsWrite s data, n)])).

(** [tcp_read]: through the session when there is one, else from the
    descriptor. *)
Definition tcp_read (C : channel) (HAVE_SSL : bool) (tcp : tcp_t)
    (buffer : list Z) (size : Z) (x : wire) : Z * list Z * wire :=
  match (if HAVE_SSL then tcp_ssl tcp else None) with
  | Some s => ssl_read C s buffer size x
  | None => sys_read C (tcp_fd tcp) buffer size x
  end.

(** [tcp_write]: through the session when there is one, else to the
    descriptor. *)
Definition tcp_write (C : channel) (HAVE_SSL : bool) (tcp : tcp_t)
    (buffer : list Z) (size : Z) (x : wire) : Z * wire :=
  match (if HAVE_SSL then tcp_ssl tcp else None) with
  | Some s => ssl_write C s buffer size x
  | None => sys_write C (tcp_fd tcp) buffer size x
  end.

(** A caller's request on a connection. *)
Inductive request :=
| DoRead (buffer : list Z) (size : Z)
| DoWrite (buffer : list Z) (size : Z).

(** The requests [reqs] made one after the other on the same record. *)
Fixpoint tcp_serve (C : channel) (HAVE_SSL : bool) (tcp : tcp_t)
    (reqs : list request) (x : wire) : wire :=
  match reqs with
  | [] => x
  | DoRead buffer size :: rest =>
      tcp_serve C HAVE_SSL tcp rest
        (tcp_read C HAVE_SSL tcp buffer size x).2
  | DoWrite buffer size :: rest =>
      tcp_serve C HAVE_SSL tcp rest
        (tcp_write C HAVE_SSL tcp buffer size x).2
  end.

(** The transfers of [x'] that [x] did not have yet. *)
Definition moved_since (x x' : wire) : list (transfer * Z) :=
  drop (length (moved x)) (moved x').

(** A transfer through the TLS session [s]. *)
Definition through (s : nat) (t : transfer) : bool :=
  match t with
  | TlsRead s' _ | TlsWrite s' _ => bool_decide (s' = s)
  | _ => false
  end.

(** A transfer on the descriptor [fd]. *)
Definition on_descriptor (fd : Z) (t : transfer) : bool :=
  match t with
  | RawRead fd' _ | RawWrite fd' _ => bool_decide (fd' = fd)
  | _ => false
  end.

(** ** Further concrete systems *)

Module Cases.

(** Two addresses; the first refuses the connection, the second accepts. *)
Definition picky : environment :=
  Scenario.with_peer
    (λ _ a, if decide (a = ai_addr (Scenario.v4 1)) then Rejects 111
            else Accepts)
    (Scenario.with_resolver
       (λ _ _ _ _ _ _, GaiOk (Scenario.v4 1) [Scenario.v4 2])
       Scenario.calm).

(** The interface eth0 has the address 192.168.1.5; no other has one. *)
Definition wired : environment :=
  mk_env (resolver Scenario.calm) (gai_strerror Scenario.calm)
         (strerror Scenario.calm) (inet_addr Scenario.calm)
         (socket_fault Scenario.calm) (bind_fault Scenario.calm)
         (peer_of Scenario.calm) (wait_of Scenario.calm)
         (λ _ name, if String.eqb name "eth0"
                    then inr Scenario.lan_address else inl 19)
         (tls_of Scenario.calm).

(** Two addresses, and a local address that no [bind] accepts
    (EADDRNOTAVAIL). *)
Definition occupied : environment :=
  mk_env (λ _ _ _ _ _ _, GaiOk (Scenario.v4 1) [Scenario.v4 2])
         (gai_strerror Scenario.calm) (strerror Scenario.calm)
         (inet_addr Scenario.calm) (socket_fault Scenario.calm)
         (λ _ _ _, Some 99)
         (peer_of Scenario.calm) (wait_of Scenario.calm)
         (ifaddr_of Scenario.calm) (tls_of Scenario.calm).

(** A peer that sends "hi" and takes whatever it is sent. *)
Definition chatty : channel :=
  mk_channel (λ _ _ _, inr [104; 105])
             (λ _ _ data, inr (Z.of_nat (length data)))
             (λ _ _ _, inr [104; 105])
             (λ _ _ data, Z.of_nat (length data)).

End Cases.

(** * Properties *)

(** ** The descriptor table *)

Lemma lowest_from_spec (fuel : nat) (n : Z) (X : gset Z) :
  (size (filter (λ x : Z, (n ≤ x)%Z) X) ≤ fuel)%nat →
  (lowest_from fuel n X ∉ X) ∧ (n ≤ lowest_from fuel n X).
Proof.
  revert n. induction fuel as [|f IH]; intros n Hsz; simpl.
  - split; [|lia]. intros Hn.
    assert (Hin : n ∈ filter (λ x, n ≤ x) X)
      by (apply elem_of_filter; split; [lia|done]).
    assert (Hz : size (filter (λ x : Z, (n ≤ x)%Z) X) = 0%nat) by lia.
    apply size_empty_inv in Hz. rewrite Hz in Hin.
    by apply not_elem_of_empty in Hin.
  - destruct (decide (n ∈ X)) as [Hn|Hn]; [|split; [done|lia]].
    destruct (IH (n + 1)) as [Hfresh Hle]; [|split; [done|lia]].
    assert (Hsub : filter (λ x, n + 1 ≤ x) X ⊂ filter (λ x, n ≤ x) X).
    { split.
      - intros x. rewrite !elem_of_filter. intros [? ?]; split; [lia|done].
      - intros Hback. specialize (Hback n).
        rewrite !elem_of_filter in Hback.
        destruct Hback; [split; [lia|done]|lia]. }
    apply subset_size in Hsub. lia.
Qed.

Lemma lowest_free_fresh (X : gset Z) : lowest_free X ∉ X.
Proof.
  apply lowest_from_spec, subseteq_size.
  intros x. rewrite elem_of_filter. tauto.
Qed.

Lemma lowest_free_nonneg (X : gset Z) : 0 ≤ lowest_free X.
Proof.
  apply lowest_from_spec, subseteq_size.
  intros x. rewrite elem_of_filter. tauto.
Qed.

(** The lowest free descriptor is the least one: everything below it is
    open. *)
Lemma lowest_from_least (fuel : nat) (n m : Z) (X : gset Z) :
  n ≤ m < lowest_from fuel n X → m ∈ X.
Proof.
  revert n. induction fuel as [|f IH]; intros n Hm; simpl in Hm; [lia|].
  destruct (decide (n ∈ X)) as [Hn|Hn]; [|lia].
  destruct (decide (m = n)) as [->|Hne]; [done|].
  apply (IH (n + 1)). lia.
Qed.

Lemma lowest_free_least (m : Z) (X : gset Z) :
  0 ≤ m < lowest_free X → m ∈ X.
Proof. apply lowest_from_least. Qed.

(** ** The log and [errno] *)

Lemma last_errno_app (a b : list event) :
  last_errno (a ++ b) =
  match last_errno b with Some e => Some e | None => last_errno a end.
Proof.
  induction a as [|[c x] a IH]; simpl.
  - by destruct (last_errno b).
  - rewrite IH. by destruct (last_errno b).
Qed.

Lemma ran_refl (w : world) : ran w w [].
Proof. split; [by rewrite app_nil_r|done]. Qed.

Lemma ran_trans (w1 w2 w3 : world) (e1 e2 : list event) :
  ran w1 w2 e1 → ran w2 w3 e2 → ran w1 w3 (e1 ++ e2).
Proof.
  intros [Ht1 He1] [Ht2 He2]. split.
  - by rewrite Ht2, Ht1, app_assoc.
  - rewrite He2, He1, last_errno_app. by destruct (last_errno e2).
Qed.

Lemma ran_events_since (w w' : world) (evs : list event) :
  ran w w' evs → events_since w w' = evs.
Proof.
  intros [Ht _]. unfold events_since, clock. rewrite Ht.
  by rewrite drop_app_length.
Qed.

(** ** One turn of the candidate loop *)

Lemma sys_close_open (fd : Z) (w : world) :
  fd ∈ fds w →
  sys_close fd w =
  logged (Close fd) 0
    (with_nonblock (nonblock w ∖ {[fd]}) (with_fds (fds w ∖ {[fd]}) w)).
Proof. intros Hin. unfold sys_close. by rewrite decide_True. Qed.

Lemma fresh_not_minus_one (X : gset Z) : (lowest_free X =? -1) = false.
Proof. apply Z.eqb_neq. pose proof (lowest_free_nonneg X). lia. Qed.

Lemma open_then_closed (fd : Z) (X : gset Z) :
  fd ∉ X → ({[fd]} ∪ X) ∖ {[fd]} = X.
Proof.
  intros Hfresh. apply set_eq. intros x.
  rewrite elem_of_difference, elem_of_union, elem_of_singleton.
  split; [by intros [[?|?] ?]|].
  intros Hx. split; [by right|]. by intros ->.
Qed.

Lemma just_opened (fd : Z) (X : gset Z) : fd ∈ {[fd]} ∪ X.
Proof. apply elem_of_union_l. by apply elem_of_singleton. Qed.

Ltac turn_cases :=
  unfold connect_step, sys_socket, sys_bind, sys_connect, sys_select;
  repeat (case_match; simplify_eq/=);
  rewrite ?fresh_not_minus_one in *; simplify_eq/=.

Lemma connect_step_summary (E : environment) (local_if : option string)
    (local_addr : sockaddr_in) (io_timeout : Z)
    (ai : addrinfo) (next : list addrinfo) (w : world) :
  let st := connect_step E local_if local_addr io_timeout ai next w in
  ∃ evs,
    ran w (now st) evs ∧
    sessions (now st) = sessions w ∧
    ((sock_fd st = -1 ∧ fds (now st) = fds w ∧ is_Some (last_errno evs) ∧
      (gai_result st = next ∨ gai_result st = ai :: next))
     ∨ (0 ≤ sock_fd st ∧ (sock_fd st ∉ fds w) ∧
        fds (now st) = {[sock_fd st]} ∪ fds w ∧
        gai_result st = ai :: next)).
Proof.
  turn_cases.
  all: rewrite ?sys_close_open by (simpl; apply just_opened).
  all: eexists; split;
    [split; simpl; [rewrite <- ?app_assoc; simpl; reflexivity|]|].
  all: simpl; try done.
  all: split; [done|].
  all: first
    [ left; split_and!;
        [ done
        | first [done | apply open_then_closed, lowest_free_fresh]
        | by eauto
        | by eauto ]
    | right; split_and!;
        [ apply lowest_free_nonneg | apply lowest_free_fresh | done | done ] ].
Qed.

Lemma not_in_removed (x : Z) (X : gset Z) : x ∈ X ∖ {[x]} → False.
Proof.
  rewrite elem_of_difference, elem_of_singleton. by intros [_ ?].
Qed.

Lemma free_of_app (p : call → bool) (a b : list event) :
  free_of p a → free_of p b → free_of p (a ++ b).
Proof. unfold free_of. intros. by apply Forall_app. Qed.

Lemma not_einprogress (E : environment) (t : nat) (a : list Z) (e : Z) :
  posix_connect E →
  peer_errno (peer_of E t a) = Some e → (e =? EINPROGRESS) = false.
Proof.
  intros HE Hp. apply Z.eqb_neq. intros ->. by apply (HE t a).
Qed.

(** With no timeout a turn never switches the descriptor to non-blocking
    mode, and on a POSIX system never waits for it. *)
Lemma connect_step_blocking (E : environment) (local_if : option string)
    (local_addr : sockaddr_in) (ai : addrinfo) (next : list addrinfo)
    (w : world) :
  let st := connect_step E local_if local_addr 0 ai next w in
  free_of nonblock_switch (events_since w (now st)) ∧
  (posix_connect E → free_of deadline_call (events_since w (now st))).
Proof.
  turn_cases.
  all: rewrite ?sys_close_open by (simpl; apply just_opened).
  all: unfold events_since, clock; simpl.
  all: rewrite <- ?app_assoc, drop_app_length; simpl.
  all: split; [repeat constructor|intros HE].
  all: try (repeat constructor; fail).
  all: try match goal with
       | H : peer_of ?E0 ?t ?a = _, H2 : (_ =? EINPROGRESS) = true |- _ =>
           let Hn := fresh in
           assert (Hn := not_einprogress E0 t a _ HE
                           ltac:(rewrite H; reflexivity));
           congruence
       end.
  all: match goal with
       | H : ?x ∈ _ ∖ {[?x]} |- _ =>
           exfalso; exact (not_in_removed _ _ H)
       end.
Qed.

(** ** The candidate loop *)

Lemma connect_loop_exit (fuel : nat) (E : environment)
    (local_if : option string) (local_addr : sockaddr_in) (io_timeout : Z)
    (st : attempt) :
  (sock_fd st =? -1) = false →
  connect_loop fuel E local_if local_addr io_timeout st = Some st.
Proof.
  intros Hfd. destruct fuel; simpl; destruct (gai_result st);
    by rewrite ?Hfd.
Qed.

Lemma connect_loop_summary (fuel : nat) (E : environment)
    (local_if : option string) (local_addr : sockaddr_in) (io_timeout : Z)
    (st st' : attempt) :
  sock_fd st = -1 →
  connect_loop fuel E local_if local_addr io_timeout st = Some st' →
  ∃ evs,
    ran (now st) (now st') evs ∧
    sessions (now st') = sessions (now st) ∧
    ((sock_fd st' = -1 ∧ gai_result st' = [] ∧
      fds (now st') = fds (now st) ∧
      (gai_result st ≠ [] → is_Some (last_errno evs)))
     ∨ (0 ≤ sock_fd st' ∧ (sock_fd st' ∉ fds (now st)) ∧
        fds (now st') = {[sock_fd st']} ∪ fds (now st) ∧
        gai_result st' ≠ [])).
Proof.
  revert st. induction fuel as [|f IH]; intros st Hfd; simpl;
    destruct (gai_result st) as [|ai next] eqn:Hg; rewrite ?Hfd; simpl;
    intros Hrun; simplify_eq.
  - exists []. split; [apply ran_refl|]. split; [done|]. left. by rewrite Hg.
  - exists []. split; [apply ran_refl|]. split; [done|]. left. by rewrite Hg.
  - pose proof (connect_step_summary E local_if local_addr io_timeout
                  ai next (now st)) as Hstep.
    cbv zeta in Hstep.
    set (st1 := connect_step E local_if local_addr io_timeout ai next (now st))
      in *.
    destruct Hstep as (e1 & Hran1 & Hs1 & [(Hfd1 & Hfds1 & Hsome1 & _)
                                          |(Hnn1 & Hfresh1 & Hfds1 & Hg1)]).
    + destruct (IH st1 Hfd1 Hrun) as (e2 & Hran2 & Hs2 & Hcases).
      exists (e1 ++ e2). split; [by eapply ran_trans|].
      split; [congruence|].
      destruct Hcases as [(Hfd' & Hg' & Hfds' & _)
                         |(Hnn' & Hfresh' & Hfds' & Hg')].
      * left. split_and!; [done|done|congruence|]. intros _.
        rewrite last_errno_app. by destruct (last_errno e2).
      * right. by rewrite <- Hfds1.
    + rewrite connect_loop_exit in Hrun by lia. simplify_eq.
      exists e1. split_and!; [done|done|]. right. by rewrite Hg1.
Qed.

Lemma connect_loop_blocking (fuel : nat) (E : environment)
    (local_if : option string) (local_addr : sockaddr_in)
    (st st' : attempt) :
  sock_fd st = -1 →
  connect_loop fuel E local_if local_addr 0 st = Some st' →
  free_of nonblock_switch (events_since (now st) (now st')) ∧
  (posix_connect E → free_of deadline_call (events_since (now st) (now st'))).
Proof.
  assert (Hnil : ∀ w, events_since w w = []).
  { intros w. unfold events_since, clock. by rewrite drop_all. }
  revert st. induction fuel as [|f IH]; intros st Hfd; simpl;
    destruct (gai_result st) as [|ai next] eqn:Hg; rewrite ?Hfd; simpl;
    intros Hrun; simplify_eq.
  - rewrite Hnil. by split; [|intros _]; constructor.
  - rewrite Hnil. by split; [|intros _]; constructor.
  - pose proof (connect_step_summary E local_if local_addr 0
                  ai next (now st)) as Hstep.
    pose proof (connect_step_blocking E local_if local_addr
                  ai next (now st)) as Hblock.
    cbv zeta in Hstep, Hblock.
    set (st1 := connect_step E local_if local_addr 0 ai next (now st)) in *.
    destruct Hstep as (e1 & Hran1 & _ & Hcases).
    rewrite (ran_events_since _ _ _ Hran1) in Hblock.
    destruct (decide (sock_fd st1 = -1)) as [Hfd1|Hfd1].
    + destruct (connect_loop_summary _ _ _ _ _ _ _ Hfd1 Hrun)
        as (e2 & Hran2 & _).
      destruct (IH st1 Hfd1 Hrun) as [Hsw Hdl].
      rewrite (ran_events_since _ _ _ Hran2) in Hsw, Hdl.
      rewrite (ran_events_since _ _ _ (ran_trans _ _ _ _ _ Hran1 Hran2)).
      destruct Hblock as [Hsw1 Hdl1].
      split; [|intros HE]; apply free_of_app; auto.
    + rewrite connect_loop_exit in Hrun by lia. simplify_eq.
      by rewrite (ran_events_since _ _ _ Hran1).
Qed.

(** ** Termination of the candidate loop *)

(** When [socket] succeeds, a turn that ends without a socket has moved on
    to the next candidate. *)
Lemma connect_step_advances (E : environment) (local_if : option string)
    (local_addr : sockaddr_in) (io_timeout : Z)
    (ai : addrinfo) (next : list addrinfo) (w : world) :
  let st := connect_step E local_if local_addr io_timeout ai next w in
  socket_fault E (clock w) (ai_family ai) (ai_socktype ai) (ai_protocol ai)
  = None →
  sock_fd st = -1 →
  gai_result st = next.
Proof.
  turn_cases.
  all: intros Hsock Hfd; try done.
  all: pose proof (lowest_free_nonneg (fds w)); lia.
Qed.

(** If [socket] never fails, the loop ends within as many turns as there
    are candidates left. *)
Lemma connect_loop_returns (fuel : nat) (E : environment)
    (local_if : option string) (local_addr : sockaddr_in) (io_timeout : Z)
    (st : attempt) :
  (∀ t f ty p, socket_fault E t f ty p = None) →
  (length (gai_result st) ≤ fuel)%nat →
  is_Some (connect_loop fuel E local_if local_addr io_timeout st).
Proof.
  intros Hsock. revert st.
  induction fuel as [|f IH]; intros st Hlen; simpl.
  - destruct (gai_result st); [done|simpl in Hlen; lia].
  - destruct (gai_result st) as [|ai next] eqn:Hg; [done|].
    destruct (sock_fd st =? -1); [|done].
    set (st1 := connect_step E local_if local_addr io_timeout ai next
                  (now st)).
    destruct (decide (sock_fd st1 = -1)) as [Hfd|Hfd].
    + apply IH.
      pose proof (connect_step_advances E local_if local_addr io_timeout ai
                    next (now st) (Hsock _ _ _ _) Hfd) as Hadv.
      fold st1 in Hadv. rewrite Hadv. simpl in Hlen. lia.
    + rewrite connect_loop_exit by lia. done.
Qed.

(** More fuel does not change what the loop returns. *)
Lemma connect_loop_more_fuel (fuel extra : nat) (E : environment)
    (local_if : option string) (local_addr : sockaddr_in) (io_timeout : Z)
    (st st' : attempt) :
  connect_loop fuel E local_if local_addr io_timeout st = Some st' →
  connect_loop (fuel + extra) E local_if local_addr io_timeout st = Some st'.
Proof.
  revert st. induction fuel as [|f IH]; intros st; simpl.
  - destruct extra; simpl; destruct (gai_result st); try done;
      by destruct (sock_fd st =? -1).
  - destruct (gai_result st); [done|].
    destruct (sock_fd st =? -1); [apply IH|done].
Qed.

(** If [socket] never fails, [tcp_connect] returns once the fuel covers the
    resolved candidates. *)
Lemma tcp_connect_returns (fuel : nat) (E : environment) (HAVE_SSL : bool)
    (tcp : tcp_t) (hostname : string) (port secure : Z)
    (local_if : option string) (message : string) (io_timeout : Z)
    (w : world) :
  (∀ t f ty p, socket_fault E t f ty p = None) →
  (match resolver E hostname (portstr_of port) (tcp_ai_family tcp)
           SOCK_STREAM AI_ADDRCONFIG 0 with
   | GaiFail _ => 0
   | GaiOk _ rest => S (length rest)
   end ≤ fuel)%nat →
  is_Some (tcp_connect fuel E HAVE_SSL tcp hostname port secure local_if
             message io_timeout w).
Proof.
  intros Hsock Hfuel. unfold tcp_connect.
  destruct (resolver E _ _ _ _ _ _) as [code|first rest]; [done|].
  destruct (connect_loop_returns fuel E local_if
              (local_addr_of E tcp local_if) io_timeout
              (mk_attempt (-1) (first :: rest) w) Hsock Hfuel) as [st ->].
  done.
Qed.

(** ** [tcp_connect] as a whole *)

(** C10.  A call of [tcp_connect] that returns -1, whether the name did not
    resolve, every candidate was used up or the TLS handshake failed,
    leaves the [fd] field of the connection record as it found it: the
    field is assigned on the success path only. *)
Theorem tcp_connect_failure_keeps_fd (fuel : nat) (E : environment)
    (HAVE_SSL : bool) (tcp : tcp_t) (hostname : string) (port secure : Z)
    (local_if : option string) (message : string) (io_timeout : Z)
    (w : world) (r : result) :
  tcp_connect fuel E HAVE_SSL tcp hostname port secure local_if message
    io_timeout w = Some r →
  ret r = -1 →
  tcp_fd (tcp_after r) = tcp_fd tcp.
Proof.
  unfold tcp_connect.
  destruct (resolver E _ _ _ _ _ _) as [code|first rest].
  - by intros [= <-].
  - destruct (connect_loop _ _ _ _ _ _) as [st|]; [|done].
    intros [= <-]. unfold after_loop, connected.
    destruct (sock_fd st =? -1); [done|].
    destruct (HAVE_SSL && negb (secure =? 0)); [|done].
    destruct (ssl_connect _ _ _ _ _) as [[[s|] msg] w']; done.
Qed.

Lemma tcp_connect_failure_keeps_fd_witness :
  ∃ r,
    tcp_connect 1 Scenario.untrusted true (Scenario.fresh_tcp AF_INET)
      "example.org" 443 1 None "" 5 Scenario.boot = Some r ∧
    ret r = -1 ∧
    tcp_fd (tcp_after r) = 0.
Proof.
  eexists. split; [vm_compute; reflexivity|]. split; [reflexivity|].
  apply (tcp_connect_failure_keeps_fd 1 Scenario.untrusted true
           (Scenario.fresh_tcp AF_INET) "example.org" 443 1 None "" 5
           Scenario.boot); reflexivity.
Defined.

(** A turn that ends without a socket either failed to create one, or
    closed the one it created as its last call and moved on. *)
Lemma connect_step_abandon (E : environment) (local_if : option string)
    (local_addr : sockaddr_in) (io_timeout : Z)
    (ai : addrinfo) (next : list addrinfo) (w : world) :
  let st := connect_step E local_if local_addr io_timeout ai next w in
  let evs := events_since w (now st) in
  let opened := Socket (ai_family ai) (ai_socktype ai) (ai_protocol ai) in
  sock_fd st = -1 →
  (∃ e, evs = [Ev opened (Err e)] ∧ gai_result st = ai :: next)
  ∨ (∃ fd, (fd ∉ fds w) ∧
           head evs = Some (Ev opened (Ret fd)) ∧
           last evs = Some (Ev (Close fd) (Ret 0)) ∧
           gai_result st = next).
Proof.
  turn_cases.
  all: rewrite ?sys_close_open by (simpl; apply just_opened).
  all: unfold events_since, clock; simpl.
  all: rewrite <- ?app_assoc, drop_app_length; simpl.
  all: intros Hfd.
  all: try (left; eexists; split; reflexivity).
  all: try (right; eexists; split_and!;
            [apply lowest_free_fresh|reflexivity|reflexivity|reflexivity]).
  all: pose proof (lowest_free_nonneg (fds w)); lia.
Qed.

Lemma after_loop_fds (E : environment) (HAVE_SSL : bool) (tcp : tcp_t)
    (hostname : string) (port secure : Z) (message : string)
    (io_timeout : Z) (st : attempt) (X : gset Z) :
  (sock_fd st = -1 ∧ fds (now st) = X)
  ∨ (sock_fd st ≠ -1 ∧ (sock_fd st ∉ X) ∧
     fds (now st) = {[sock_fd st]} ∪ X) →
  let r := after_loop E HAVE_SSL tcp hostname port secure message
             io_timeout st in
  (ret r = -1 ∧ fds (world_after r) = X)
  ∨ (ret r = 1 ∧ (tcp_fd (tcp_after r) ∉ X) ∧
     fds (world_after r) = {[tcp_fd (tcp_after r)]} ∪ X).
Proof.
  unfold after_loop, connected, ssl_connect.
  intros [[Hfd Hfds]|(Hfd & Hfresh & Hfds)]; simpl.
  - rewrite Hfd. simpl. by left.
  - apply Z.eqb_neq in Hfd as Hfdb. rewrite Hfdb.
    destruct (HAVE_SSL && negb (secure =? 0)); [|by right].
    destruct (tls_of E _ _ _) as [reason|s]; simpl; [|by right].
    left. split; [done|].
    rewrite sys_close_open by (simpl; rewrite Hfds; apply just_opened).
    simpl. rewrite Hfds. by apply open_then_closed.
Qed.

(** C5.  A socket that [tcp_connect] opens and then gives up on is closed
    before the next candidate is tried or failure is returned.  Turn by
    turn: a turn of the candidate loop that ends without a socket has
    either opened none, or closed the one it opened as its last call, and
    leaves the descriptor table as it found it.  For the whole call: when
    -1 is returned, also after a failed TLS handshake, the descriptor table
    is the one the call started with; when 1 is returned it holds exactly
    one more descriptor, the one stored in the connection record. *)
Theorem tcp_connect_closes_abandoned_sockets (fuel : nat) (E : environment)
    (HAVE_SSL : bool) (tcp : tcp_t) (hostname : string) (port secure : Z)
    (local_if : option string) (message : string) (io_timeout : Z)
    (w : world) :
  (∀ (local_addr : sockaddr_in) (ai : addrinfo) (next : list addrinfo)
     (w0 : world),
     let st := connect_step E local_if local_addr io_timeout ai next w0 in
     let evs := events_since w0 (now st) in
     let opened := Socket (ai_family ai) (ai_socktype ai) (ai_protocol ai) in
     sock_fd st = -1 →
     fds (now st) = fds w0 ∧
     ((∃ e, evs = [Ev opened (Err e)] ∧ gai_result st = ai :: next)
      ∨ (∃ fd, (fd ∉ fds w0) ∧
               head evs = Some (Ev opened (Ret fd)) ∧
               last evs = Some (Ev (Close fd) (Ret 0)) ∧
               gai_result st = next))) ∧
  (∀ r : result,
     tcp_connect fuel E HAVE_SSL tcp hostname port secure local_if message
       io_timeout w = Some r →
     (ret r = -1 ∧ fds (world_after r) = fds w)
     ∨ (ret r = 1 ∧ (tcp_fd (tcp_after r) ∉ fds w) ∧
        fds (world_after r) = {[tcp_fd (tcp_after r)]} ∪ fds w)).
Proof.
  split.
  - intros local_addr ai next w0 st evs opened Hfd. split.
    + destruct (connect_step_summary E local_if local_addr io_timeout
                  ai next w0) as (e1 & _ & _ & [(_ & Hfds & _)|(Hnn & _)]);
        [done|fold st in Hnn; lia].
    + by apply connect_step_abandon.
  - intros r. unfold tcp_connect.
    destruct (resolver E _ _ _ _ _ _) as [code|first rest].
    + intros [= <-]. by left.
    + destruct (connect_loop _ _ _ _ _ _) as [st|] eqn:Hloop; [|done].
      intros [= <-]. apply after_loop_fds.
      apply connect_loop_summary in Hloop
        as (evs & _ & _ & [(Hfd & _ & Hfds & _)|(Hnn & Hfresh & Hfds & _)]);
        [..|reflexivity].
      * by left.
      * right. split_and!; [lia|done|done].
Qed.

Lemma tcp_connect_closes_abandoned_sockets_witness :
  fds (now (connect_step Scenario.refusing None (mk_sockaddr_in 0 0 0) 5
              (Scenario.v4 1) [Scenario.v4 2] Scenario.boot))
  = fds Scenario.boot ∧
  ∃ r,
    tcp_connect 2 Scenario.refusing true (Scenario.fresh_tcp AF_INET)
      "example.org" 80 0 None "" 5 Scenario.boot = Some r ∧
    ret r = -1 ∧
    fds (world_after r) = fds Scenario.boot.
Proof.
  destruct (tcp_connect_closes_abandoned_sockets 2 Scenario.refusing true
              (Scenario.fresh_tcp AF_INET) "example.org" 80 0 None "" 5
              Scenario.boot) as [Hturn Hcall].
  split.
  - apply (Hturn (mk_sockaddr_in 0 0 0) (Scenario.v4 1) [Scenario.v4 2]
             Scenario.boot). reflexivity.
  - eexists. split; [vm_compute; reflexivity|]. split; [reflexivity|].
    match goal with
    | |- fds (world_after ?r) = _ =>
        destruct (Hcall r eq_refl) as [[_ Hsame]|[Hone _]];
          [exact Hsame|discriminate Hone]
    end.
Defined.

(** The sentence [tcp_error] writes. *)
Lemma tcp_error_text (hostname : string) (port : Z) (reason : string) :
  tcp_error hostname port reason =
  "Unable to connect to server " +:+ hostname +:+ ":" +:+ pretty port
    +:+ ": " +:+ reason +:+ newline.
Proof. reflexivity. Qed.

(** C8, as the code has it.  [tcp_connect] returns -1 in three ways, and
    only two of them write the sentence of [tcp_error].  When the name does
    not resolve, it returns -1 (whatever the fuel: the loop is not entered)
    and the message buffer holds "Unable to connect to server
    HOST:PORT: REASON" and a newline, REASON being the resolver's text for
    its error code.  When the candidate loop ends with every candidate
    used up, it returns -1 and the buffer holds the same sentence with
    REASON the text of [errno], which is the one set by the last call of
    this [tcp_connect] that failed.  When a socket was connected and the
    TLS handshake fails, it returns -1 without calling [tcp_error]: the
    buffer holds what [ssl_connect] wrote.  Every call that returns -1 is
    one of the three. *)
Theorem tcp_connect_failure_message (fuel : nat) (E : environment)
    (HAVE_SSL : bool) (tcp : tcp_t) (hostname : string) (port secure : Z)
    (local_if : option string) (message : string) (io_timeout : Z)
    (w : world) :
  (∀ code,
     resolver E hostname (portstr_of port) (tcp_ai_family tcp)
       SOCK_STREAM AI_ADDRCONFIG 0 = GaiFail code →
     ∃ r,
       tcp_connect fuel E HAVE_SSL tcp hostname port secure local_if
         message io_timeout w = Some r ∧
       ret r = -1 ∧
       message_after r =
       "Unable to connect to server " +:+ hostname +:+ ":" +:+ pretty port
         +:+ ": " +:+ gai_strerror E code +:+ newline) ∧
  (∀ first rest st,
     resolver E hostname (portstr_of port) (tcp_ai_family tcp)
       SOCK_STREAM AI_ADDRCONFIG 0 = GaiOk first rest →
     connect_loop fuel E local_if (local_addr_of E tcp local_if) io_timeout
       (mk_attempt (-1) (first :: rest) w) = Some st →
     sock_fd st = -1 →
     ∃ r e,
       tcp_connect fuel E HAVE_SSL tcp hostname port secure local_if
         message io_timeout w = Some r ∧
       ret r = -1 ∧
       gai_result st = [] ∧
       last_errno (events_since w (world_after r)) = Some e ∧
       message_after r =
       "Unable to connect to server " +:+ hostname +:+ ":" +:+ pretty port
         +:+ ": " +:+ strerror E e +:+ newline) ∧
  (∀ first rest st reason,
     resolver E hostname (portstr_of port) (tcp_ai_family tcp)
       SOCK_STREAM AI_ADDRCONFIG 0 = GaiOk first rest →
     connect_loop fuel E local_if (local_addr_of E tcp local_if) io_timeout
       (mk_attempt (-1) (first :: rest) w) = Some st →
     sock_fd st ≠ -1 →
     HAVE_SSL = true →
     secure ≠ 0 →
     tls_of E (clock (now st)) (sock_fd st) hostname = inl reason →
     ∃ r,
       tcp_connect fuel E HAVE_SSL tcp hostname port secure local_if
         message io_timeout w = Some r ∧
       ret r = -1 ∧
       message_after r = reason ∧
       last (events_since w (world_after r))
       = Some (Ev (Close (sock_fd st)) (Ret 0))) ∧
  (∀ r,
     tcp_connect fuel E HAVE_SSL tcp hostname port secure local_if
       message io_timeout w = Some r →
     ret r = -1 →
     (∃ code,
        resolver E hostname (portstr_of port) (tcp_ai_family tcp)
          SOCK_STREAM AI_ADDRCONFIG 0 = GaiFail code)
     ∨ (∃ first rest st,
          resolver E hostname (portstr_of port) (tcp_ai_family tcp)
            SOCK_STREAM AI_ADDRCONFIG 0 = GaiOk first rest ∧
          connect_loop fuel E local_if (local_addr_of E tcp local_if)
            io_timeout (mk_attempt (-1) (first :: rest) w) = Some st ∧
          (sock_fd st = -1
           ∨ (sock_fd st ≠ -1 ∧ HAVE_SSL = true ∧ secure ≠ 0 ∧
              ∃ reason,
                tls_of E (clock (now st)) (sock_fd st) hostname
                = inl reason)))).
Proof.
  split_and!.
  - intros code Hres. unfold tcp_connect. rewrite Hres.
    eexists. by split_and!.
  - intros first rest st Hres Hloop Hfd. unfold tcp_connect.
    rewrite Hres, Hloop. unfold after_loop. rewrite Hfd. simpl.
    apply connect_loop_summary in Hloop
      as (evs & Hran & _ & [(_ & Hg & _ & Hsome)|(Hnn & _)]);
      [..|reflexivity]; [|lia].
    destruct Hsome as [e He]; [done|]. simpl in Hran.
    eexists _, e. split_and!; try done.
    + simpl. by rewrite (ran_events_since _ _ _ Hran).
    + simpl. destruct Hran as [_ ->]. by rewrite He.
  - intros first rest st reason Hres Hloop Hfd -> Hsec Htls.
    unfold tcp_connect. rewrite Hres, Hloop.
    apply connect_loop_summary in Hloop
      as (evs & Hran & _ & [(Hgone & _)|(_ & _ & Hfds & _)]);
      [..|reflexivity]; [done|]. simpl in Hran, Hfds.
    apply Z.eqb_neq in Hfd, Hsec.
    unfold after_loop, ssl_connect. rewrite Hfd, Hsec, Htls. simpl.
    rewrite sys_close_open by (simpl; rewrite Hfds; apply just_opened).
    eexists. split_and!; try done.
    destruct Hran as [Htrace _]. unfold events_since, clock. simpl.
    rewrite Htrace, <- !app_assoc, drop_app_length.
    by rewrite !app_assoc, last_snoc.
  - intros r. unfold tcp_connect.
    destruct (resolver E _ _ _ _ _ _) as [code|first rest];
      [intros _ _; left; by exists code|].
    destruct (connect_loop _ _ _ _ _ _) as [st|] eqn:Hloop; [|done].
    intros [= <-] Hret. right. exists first, rest, st.
    split_and!; [done|done|].
    revert Hret. unfold after_loop, connected, ssl_connect.
    destruct (sock_fd st =? -1) eqn:Hfd; [intros _; left; lia|].
    apply Z.eqb_neq in Hfd.
    destruct HAVE_SSL; simpl; [|done].
    destruct (secure =? 0) eqn:Hsec; simpl; [done|].
    apply Z.eqb_neq in Hsec.
    destruct (tls_of E _ _ _) as [reason|s]; simpl; [|done].
    intros _. right. split_and!; try done. by exists reason.
Qed.

Lemma tcp_connect_failure_message_witness :
  (∃ r,
     tcp_connect 0 Scenario.nameless false (Scenario.fresh_tcp AF_INET)
       "example.org" 80 0 None "" 5 Scenario.boot = Some r ∧
     ret r = -1 ∧
     message_after r =
     "Unable to connect to server example.org:80: Name or service not known"
       +:+ newline) ∧
  (∃ r e,
     tcp_connect 2 Scenario.refusing false (Scenario.fresh_tcp AF_INET)
       "example.org" 80 0 None "" 5 Scenario.boot = Some r ∧
     ret r = -1 ∧
     e = 111 ∧
     message_after r =
     "Unable to connect to server example.org:80: errno 111" +:+ newline) ∧
  (∃ r,
     tcp_connect 1 Scenario.untrusted true (Scenario.fresh_tcp AF_INET)
       "example.org" 443 1 None "" 5 Scenario.boot = Some r ∧
     ret r = -1 ∧
     message_after r = "SSL error: certificate verify failed").
Proof.
  split_and!.
  - destruct (tcp_connect_failure_message 0 Scenario.nameless false
                (Scenario.fresh_tcp AF_INET) "example.org" 80 0 None "" 5
                Scenario.boot) as [Hname _].
    destruct (Hname (-2) eq_refl) as (r & Hr & Hret & Hmsg).
    exists r. split_and!; [exact Hr|exact Hret|exact Hmsg].
  - destruct (tcp_connect_failure_message 2 Scenario.refusing false
                (Scenario.fresh_tcp AF_INET) "example.org" 80 0 None "" 5
                Scenario.boot) as (_ & Hspent & _).
    eassert (Hloop : connect_loop 2 Scenario.refusing None
                       (local_addr_of Scenario.refusing
                          (Scenario.fresh_tcp AF_INET) None) 5
                       (mk_attempt (-1) [Scenario.v4 1; Scenario.v4 2]
                          Scenario.boot) = Some _)
      by (vm_compute; reflexivity).
    destruct (Hspent (Scenario.v4 1) [Scenario.v4 2] _ eq_refl Hloop
                eq_refl) as (r & e & Hr & Hret & _ & He & Hmsg).
    exists r, e. split_and!; [exact Hr|exact Hret| |].
    + vm_compute in Hr. injection Hr as <-. vm_compute in He. congruence.
    + vm_compute in Hr. injection Hr as <-. vm_compute in He.
      injection He as <-. exact Hmsg.
  - destruct (tcp_connect_failure_message 1 Scenario.untrusted true
                (Scenario.fresh_tcp AF_INET) "example.org" 443 1 None "" 5
                Scenario.boot) as (_ & _ & Htls & _).
    eassert (Hloop : connect_loop 1 Scenario.untrusted None
                       (local_addr_of Scenario.untrusted
                          (Scenario.fresh_tcp AF_INET) None) 5
                       (mk_attempt (-1) [Scenario.v4 1] Scenario.boot)
                     = Some _)
      by (vm_compute; reflexivity).
    destruct (Htls (Scenario.v4 1) [] _
                "SSL error: certificate verify failed" eq_refl Hloop)
      as (r & Hr & Hret & Hmsg & _);
      [discriminate|reflexivity|discriminate|reflexivity|].
    exists r. split_and!; [exact Hr|exact Hret|exact Hmsg].
Defined.

(** C8, as stated, fails: when the TLS handshake fails [tcp_connect]
    returns -1 and the buffer holds the text of the TLS layer, which is the
    sentence of [tcp_error] for no reason at all. *)
Lemma tcp_connect_handshake_message_differs :
  ret <$> tcp_connect 1 Scenario.untrusted true (Scenario.fresh_tcp AF_INET)
            "example.org" 443 1 None "" 5 Scenario.boot
  = Some (-1) ∧
  message_after <$>
    tcp_connect 1 Scenario.untrusted true (Scenario.fresh_tcp AF_INET)
      "example.org" 443 1 None "" 5 Scenario.boot
  = Some "SSL error: certificate verify failed" ∧
  ∀ reason,
    tcp_error "example.org" 443 reason
    ≠ "SSL error: certificate verify failed".
Proof.
  split_and!; [by vm_compute|by vm_compute|].
  intros reason. rewrite tcp_error_text. simpl. discriminate.
Qed.

(** What follows the loop neither switches a descriptor to non-blocking
    mode nor waits. *)
Lemma after_loop_ran (E : environment) (HAVE_SSL : bool) (tcp : tcp_t)
    (hostname : string) (port secure : Z) (message : string)
    (io_timeout : Z) (st : attempt) :
  let r := after_loop E HAVE_SSL tcp hostname port secure message
             io_timeout st in
  ∃ evs, ran (now st) (world_after r) evs ∧ free_of deadline_call evs ∧
         free_of nonblock_switch evs.
Proof.
  unfold after_loop, connected, ssl_connect, sys_close, sys_setsockopt.
  repeat (case_match; simplify_eq/=).
  all: first
    [ by exists []; split_and!; [apply ran_refl|constructor|constructor]
    | eexists; split_and!;
        [ split; simpl; [rewrite <- ?app_assoc; simpl; reflexivity|reflexivity]
        | repeat constructor
        | repeat constructor ] ].
Qed.

(** With no timeout, a lone candidate whose peer is slow is connected in
    one turn, by a blocking [connect]. *)
Lemma connect_step_patient (E : environment) (local_if : option string)
    (local_addr : sockaddr_in) (ai : addrinfo) (w : world) :
  (∀ t f ty p, socket_fault E t f ty p = None) →
  (∀ t fd a, bind_fault E t fd a = None) →
  (∀ t, peer_of E t (ai_addr ai) = Slow None) →
  let st := connect_step E local_if local_addr 0 ai [] w in
  sock_fd st = lowest_free (fds w) ∧
  last (trace (now st)) = Some (Ev (SetFl (sock_fd st) 0) (Ret 0)) ∧
  Ev (Connect (sock_fd st) (ai_addr ai)) (Ret 0) ∈ trace (now st).
Proof.
  intros Hsock Hbind Hpeer.
  unfold connect_step, sys_socket, sys_bind, sys_connect.
  rewrite Hsock, fresh_not_minus_one.
  destruct ((ai_family ai =? AF_INET) && is_set local_if); simpl;
    rewrite ?Hbind; simpl; rewrite ?fresh_not_minus_one; simpl;
    rewrite Hpeer; (destruct (decide _) as [Hin|_];
                    [by apply not_in_removed in Hin|]); simpl.
  all: split_and!; [done|by rewrite last_snoc|].
  all: rewrite !elem_of_app, !list_elem_of_singleton; auto.
Qed.

(** C7.  With [io_timeout = 0] no deadline is imposed on the connect
    phase.  No call of [tcp_connect] that returns has switched a descriptor
    to non-blocking mode, and, EINPROGRESS being what POSIX says it is, none
    has waited with [select]: every [connect] was a blocking one.  So when
    the name resolves to a single candidate whose peer answers late but
    does answer (sockets, binds and the TLS handshake not failing),
    [tcp_connect] returns 1 after one turn, the descriptor in the record
    being the one the blocking [connect] returned 0 for. *)
Theorem tcp_connect_without_timeout (E : environment) (HAVE_SSL : bool)
    (tcp : tcp_t) (hostname : string) (port secure : Z)
    (local_if : option string) (message : string) (w : world) :
  (∀ fuel r,
     tcp_connect fuel E HAVE_SSL tcp hostname port secure local_if message
       0 w = Some r →
     free_of nonblock_switch (events_since w (world_after r)) ∧
     (posix_connect E →
      free_of deadline_call (events_since w (world_after r)))) ∧
  (∀ fuel ai,
     resolver E hostname (portstr_of port) (tcp_ai_family tcp)
       SOCK_STREAM AI_ADDRCONFIG 0 = GaiOk ai [] →
     (∀ t f ty p, socket_fault E t f ty p = None) →
     (∀ t fd a, bind_fault E t fd a = None) →
     (∀ t, peer_of E t (ai_addr ai) = Slow None) →
     (∀ t fd h, ∃ s, tls_of E t fd h = inr s) →
     ∃ r,
       tcp_connect (S fuel) E HAVE_SSL tcp hostname port secure local_if
         message 0 w = Some r ∧
       ret r = 1 ∧
       tcp_fd (tcp_after r) = lowest_free (fds w) ∧
       Ev (Connect (tcp_fd (tcp_after r)) (ai_addr ai)) (Ret 0)
         ∈ trace (world_after r)).
Proof.
  split.
  - intros fuel r. unfold tcp_connect.
    destruct (resolver E _ _ _ _ _ _) as [code|first rest].
    { intros [= <-]. simpl. unfold events_since, clock.
      rewrite drop_all. by split; [|intros _]; constructor. }
    destruct (connect_loop _ _ _ _ _ _) as [st|] eqn:Hloop; [|done].
    intros [= <-].
    apply connect_loop_blocking in Hloop as Hfree; [|reflexivity].
    destruct Hfree as [Hsw Hdl].
    apply connect_loop_summary in Hloop as (e1 & Hran1 & _);
      [|reflexivity].
    destruct (after_loop_ran E HAVE_SSL tcp hostname port secure message
                0 st) as (e2 & Hran2 & Hdl2 & Hsw2).
    simpl in Hsw, Hdl, Hran1.
    rewrite (ran_events_since _ _ _ Hran1) in Hsw, Hdl.
    rewrite (ran_events_since _ _ _ (ran_trans _ _ _ _ _ Hran1 Hran2)).
    split; [|intros HE]; apply free_of_app; auto.
  - intros fuel ai Hres Hsock Hbind Hpeer Htls.
    unfold tcp_connect. rewrite Hres. simpl.
    destruct (connect_step_patient E local_if (local_addr_of E tcp local_if)
                ai w Hsock Hbind Hpeer) as (Hfd & _ & Hin).
    set (st := connect_step E local_if (local_addr_of E tcp local_if) 0
                 ai [] w) in *.
    assert (Hopen : (sock_fd st =? -1) = false)
      by (rewrite Hfd; apply fresh_not_minus_one).
    rewrite connect_loop_exit by done.
    eexists. split; [reflexivity|].
    unfold after_loop, connected, ssl_connect. rewrite Hopen.
    destruct (HAVE_SSL && negb (secure =? 0)).
    + destruct (Htls (clock (now st)) (sock_fd st) hostname) as [s ->].
      simpl. split_and!; [done|done|].
      rewrite !elem_of_app. auto.
    + simpl. split_and!; [done|done|].
      rewrite !elem_of_app. auto.
Qed.

Lemma tcp_connect_without_timeout_witness :
  ∃ r,
    tcp_connect 1 Scenario.sluggish true (Scenario.fresh_tcp AF_INET)
      "example.org" 443 1 None "" 0 Scenario.boot = Some r ∧
    ret r = 1 ∧
    tcp_fd (tcp_after r) = 3 ∧
    free_of deadline_call (events_since Scenario.boot (world_after r)).
Proof.
  destruct (tcp_connect_without_timeout Scenario.sluggish true
              (Scenario.fresh_tcp AF_INET) "example.org" 443 1 None ""
              Scenario.boot) as [Hcalls Hslow].
  destruct (Hslow 0%nat (Scenario.v4 1) eq_refl
              (λ _ _ _ _, eq_refl) (λ _ _ _, eq_refl) (λ _, eq_refl)
              (λ _ _ _, ex_intro _ 1%nat eq_refl))
    as (r & Hr & Hret & Hfd & _).
  exists r. split_and!; [exact Hr|exact Hret|exact Hfd|].
  apply (Hcalls 1%nat r Hr). intros t a. discriminate.
Defined.

(** ** [tcp_close] *)

(** C6.  [tcp_close] is idempotent.  On a connection that is already
    closed ([fd] is -1) it changes neither the record nor the system and
    makes no call; and closing twice leaves exactly what closing once
    leaves, the second call making no call at all. *)
Theorem tcp_close_idempotent (HAVE_SSL : bool) (tcp : tcp_t) (w : world) :
  (tcp_fd tcp = -1 → tcp_close HAVE_SSL tcp w = (tcp, w)) ∧
  (let once := tcp_close HAVE_SSL tcp w in
   tcp_close HAVE_SSL once.1 once.2 = once ∧
   events_since once.2 (tcp_close HAVE_SSL once.1 once.2).2 = []).
Proof.
  assert (Hnil : ∀ w0, events_since w0 w0 = []).
  { intros w0. unfold events_since, clock. by rewrite drop_all. }
  split.
  - intros Hfd. unfold tcp_close. by rewrite Hfd.
  - unfold tcp_close.
    destruct (0 <? tcp_fd tcp) eqn:Hopen.
    + destruct (if HAVE_SSL then tcp_ssl tcp else None); simpl;
        by rewrite Hnil.
    + simpl. rewrite Hopen. simpl. by rewrite Hnil.
Qed.

Lemma tcp_close_idempotent_witness :
  tcp_close true (mk_tcp (-1) AF_INET None) Scenario.boot
  = (mk_tcp (-1) AF_INET None, Scenario.boot).
Proof.
  exact (proj1 (tcp_close_idempotent true (mk_tcp (-1) AF_INET None)
                  Scenario.boot) eq_refl).
Defined.

(** The secure branch of [tcp_close].  For a connection with a secure
    session and a positive descriptor, in a build with HAVE_SSL,
    [tcp_close] makes one call, the teardown of the session; it clears the
    session slot and sets [fd] to -1.  A connection whose [fd] is not
    positive is left as it is. *)
Theorem tcp_close_secure (tcp : tcp_t) (w : world) (s : nat) :
  tcp_ssl tcp = Some s →
  (0 < tcp_fd tcp →
   tcp_close true tcp w
   = (mk_tcp (-1) (tcp_ai_family tcp) None, ssl_disconnect s w) ∧
   events_since w (tcp_close true tcp w).2 = [Ev (SslDisconnect s) (Ret 0)] ∧
   (s ∉ sessions (tcp_close true tcp w).2)) ∧
  (tcp_fd tcp ≤ 0 → tcp_close true tcp w = (tcp, w)).
Proof.
  intros Hs. unfold tcp_close. rewrite Hs. split.
  - intros Hfd. apply Z.ltb_lt in Hfd. rewrite Hfd. simpl.
    split_and!; [done| |].
    2: { rewrite elem_of_difference, elem_of_singleton. by intros [_ ?]. }
    unfold events_since, clock, ssl_disconnect. simpl.
    by rewrite drop_app_length.
  - intros Hfd. apply Z.ltb_ge in Hfd. by rewrite Hfd.
Qed.

Lemma tcp_close_secure_witness :
  tcp_close true (mk_tcp 3 AF_INET (Some 1%nat)) Scenario.secured
  = (mk_tcp (-1) AF_INET None, ssl_disconnect 1 Scenario.secured) ∧
  tcp_close true (mk_tcp 0 AF_INET (Some 1%nat)) Scenario.secured
  = (mk_tcp 0 AF_INET (Some 1%nat), Scenario.secured).
Proof.
  split.
  - apply (tcp_close_secure (mk_tcp 3 AF_INET (Some 1%nat))
             Scenario.secured 1 eq_refl). reflexivity.
  - apply (tcp_close_secure (mk_tcp 0 AF_INET (Some 1%nat))
             Scenario.secured 1 eq_refl). discriminate.
Defined.

(** C4, on the code: closing a secured connection does not close its
    descriptor.  After a secure connect that returned descriptor 3 under
    session 1, [tcp_close] makes one call, the teardown of the session, and
    sets [fd] to -1: no [close] is made, and descriptor 3 stays in the
    descriptor table with nothing left that refers to it.  The same
    connection made without TLS is closed by [close(3)]. *)
Theorem tcp_close_secure_leaks_descriptor :
  (∃ r,
     tcp_connect 1 Scenario.calm true (Scenario.fresh_tcp AF_INET)
       "example.org" 443 1 None "" 5 Scenario.boot = Some r ∧
     ret r = 1 ∧
     tcp_fd (tcp_after r) = 3 ∧
     tcp_ssl (tcp_after r) = Some 1%nat ∧
     ¬ torn_down_then_closed (tcp_after r) (world_after r)
         (tcp_close true (tcp_after r) (world_after r)).2 ∧
     events_since (world_after r)
       (tcp_close true (tcp_after r) (world_after r)).2
     = [Ev (SslDisconnect 1) (Ret 0)] ∧
     tcp_fd (tcp_close true (tcp_after r) (world_after r)).1 = -1 ∧
     3 ∈ fds (tcp_close true (tcp_after r) (world_after r)).2) ∧
  (∃ r,
     tcp_connect 1 Scenario.calm true (Scenario.fresh_tcp AF_INET)
       "example.org" 80 0 None "" 5 Scenario.boot = Some r ∧
     ret r = 1 ∧
     tcp_fd (tcp_after r) = 3 ∧
     events_since (world_after r)
       (tcp_close true (tcp_after r) (world_after r)).2
     = [Ev (Close 3) (Ret 0)] ∧
     (3 ∉ fds (tcp_close true (tcp_after r) (world_after r)).2)).
Proof.
  split.
  - eexists. split; [vm_compute; reflexivity|].
    split_and!; try (by vm_compute).
    intros (s & _ & Hev). vm_compute in Hev. discriminate Hev.
  - eexists. split; [vm_compute; reflexivity|].
    split_and!; by vm_compute.
Qed.

(** ** [get_if_ip] *)

(** C9.  [get_if_ip] always leaves the descriptor table as it found it: the
    datagram socket, when one was opened, is closed by the last call made.
    When the lookup fails, because the socket could not be created or the
    ioctl failed for the (truncated) interface name, it returns 0, and
    whenever it returns 0 the caller's buffer is exactly as it was. *)
Theorem get_if_ip_failure (E : environment) (iface ip : string) (w : world) :
  let res := get_if_ip E iface ip w in
  let evs := events_since w res.2 in
  let opened := Socket PF_INET SOCK_DGRAM IPPROTO_IP in
  fds res.2 = fds w ∧
  (∀ fd, head evs = Some (Ev opened (Ret fd)) →
         last evs = Some (Ev (Close fd) (Ret 0))) ∧
  (res.1.1 = 0 → res.1.2 = ip) ∧
  (is_Some (socket_fault E (clock w) PF_INET SOCK_DGRAM IPPROTO_IP)
   ∨ (∃ e, ifaddr_of E (S (clock w))
             (String.substring 0 (IFNAMSIZ - 1) iface) = inl e) →
   res.1.1 = 0 ∧ res.1.2 = ip).
Proof.
  unfold get_if_ip, sys_socket, sys_ioctl_ifaddr.
  destruct (socket_fault E _ _ _ _) as [e|] eqn:Hsock; simpl.
  - unfold events_since, clock. simpl. rewrite drop_app_length.
    split_and!; [done|intros fd [=]|done|done].
  - pose proof (lowest_free_nonneg (fds w)) as Hnn.
    pose proof (lowest_free_fresh (fds w)) as Hfresh.
    destruct (lowest_free (fds w) <? 0) eqn:Hneg; [lia|].
    assert (Hclock : ∀ c v X Y,
              clock (logged c v (with_nonblock X (with_fds Y w)))
              = S (clock w)).
    { intros. unfold clock. simpl. rewrite length_app. simpl. lia. }
    rewrite Hclock.
    destruct (ifaddr_of E _ _) as [e|a] eqn:Hif; simpl.
    all: rewrite sys_close_open by (simpl; apply just_opened).
    all: unfold events_since, clock; simpl.
    all: rewrite <- ?app_assoc, drop_app_length; simpl.
    all: split_and!;
      [ by apply open_then_closed
      | by intros fd [= <-]
      | done
      | try done ].
    intros [[e' [=]]|[e' [=]]].
Qed.

Lemma get_if_ip_failure_witness :
  (get_if_ip Scenario.calm "nonexistent0" "untouched" Scenario.boot).1
  = (0, "untouched").
Proof.
  destruct (get_if_ip_failure Scenario.calm "nonexistent0" "untouched"
              Scenario.boot) as (_ & _ & _ & Hfail).
  destruct Hfail as [Hret Hip].
  - right. exists 19. reflexivity.
  - destruct (get_if_ip _ _ _ _) as [[r ip'] w']. simpl in *. congruence.
Defined.

(** ** Where the code departs from its design *)

(** A turn whose wait timed out keeps its socket. *)
Lemma connect_step_keeps_timed_out (E : environment)
    (local_if : option string) (local_addr : sockaddr_in) (io_timeout : Z)
    (ai : addrinfo) (next : list addrinfo) (w : world) (fd : Z) :
  let st := connect_step E local_if local_addr io_timeout ai next w in
  Ev (Select fd io_timeout) (Ret 0) ∈ events_since w (now st) →
  sock_fd st = fd ∧ fd ∈ fds (now st) ∧ gai_result st = ai :: next.
Proof.
  turn_cases.
  all: rewrite ?sys_close_open by (simpl; apply just_opened).
  all: unfold events_since, clock; simpl.
  all: rewrite <- ?app_assoc, drop_app_length; simpl.
  all: intros Hin.
  all: repeat (apply elem_of_cons in Hin as [Hin|Hin];
               [try discriminate Hin|]).
  all: try (by apply elem_of_nil in Hin).
  all: injection Hin as ->.
  all: split_and!; [done|apply just_opened|done].
Qed.

(** C1, on the code: a handshake reported in progress whose wait times out
    ([select] returns 0) is not given up.  The turn tests [ret == -1] only,
    so the socket is switched back to blocking mode and returned: with a
    timeout of 5 seconds and a peer that never answers, [tcp_connect]
    returns 1 with descriptor 3 in the record, still open. *)
Theorem tcp_connect_returns_timed_out_socket :
  ∃ r,
    tcp_connect 1 Scenario.stalled false (Scenario.fresh_tcp AF_INET)
      "example.org" 80 0 None "" 5 Scenario.boot = Some r ∧
    ret r = 1 ∧
    tcp_fd (tcp_after r) = 3 ∧
    3 ∈ fds (world_after r) ∧
    events_since Scenario.boot (world_after r) =
    [ Ev (Socket AF_INET SOCK_STREAM 6) (Ret 3);
      Ev (SetFl 3 O_NONBLOCK) (Ret 0);
      Ev (Connect 3 (ai_addr (Scenario.v4 1))) (Err EINPROGRESS);
      Ev (Select 3 5) (Ret 0);
      Ev (SetFl 3 0) (Ret 0);
      Ev (SetSockOpt 3 SO_RCVTIMEO 5) (Ret 0);
      Ev (SetSockOpt 3 SO_SNDTIMEO 5) (Ret 0) ].
Proof.
  eexists. split; [vm_compute; reflexivity|].
  split_and!; by vm_compute.
Qed.

(** A turn whose [socket] call fails changes nothing but the log and
    [errno]: [gai_result] still points to the same candidate. *)
Lemma connect_step_socket_failure (E : environment)
    (local_if : option string) (local_addr : sockaddr_in) (io_timeout : Z)
    (ai : addrinfo) (next : list addrinfo) (w : world) (e : Z) :
  socket_fault E (clock w) (ai_family ai) (ai_socktype ai) (ai_protocol ai)
  = Some e →
  connect_step E local_if local_addr io_timeout ai next w
  = mk_attempt (-1) (ai :: next)
      (failed (Socket (ai_family ai) (ai_socktype ai) (ai_protocol ai)) e w).
Proof. intros Hsock. unfold connect_step, sys_socket. by rewrite Hsock. Qed.

(** While [socket] fails the loop stays on the same candidate: nothing in
    the turn moves [gai_result] on. *)
Lemma connect_loop_starved (fuel : nat) (E : environment)
    (local_if : option string) (local_addr : sockaddr_in) (io_timeout : Z)
    (ai : addrinfo) (next : list addrinfo) (w : world) :
  (∀ t f ty p, is_Some (socket_fault E t f ty p)) →
  connect_loop fuel E local_if local_addr io_timeout
    (mk_attempt (-1) (ai :: next) w) = None.
Proof.
  intros Hfault. revert w. induction fuel as [|f IH]; intros w; [done|].
  simpl.
  destruct (Hfault (clock w) (ai_family ai) (ai_socktype ai)
              (ai_protocol ai)) as [e He].
  rewrite (connect_step_socket_failure _ _ _ _ _ _ _ _ He). apply IH.
Qed.

(** C2, on the code: a candidate whose [socket] call fails is not skipped.
    When the process is out of descriptors [tcp_connect] does not return,
    whatever the fuel; and when only the first [socket] call fails, the
    first of two candidates is tried again and connected, the second never
    being reached. *)
Theorem tcp_connect_retries_failed_socket :
  (∀ fuel,
     tcp_connect fuel Scenario.starved false (Scenario.fresh_tcp AF_INET)
       "example.org" 80 0 None "" 5 Scenario.boot = None) ∧
  (∃ r,
     tcp_connect 2 Scenario.hiccup false (Scenario.fresh_tcp AF_INET)
       "example.org" 80 0 None "" 0 Scenario.boot = Some r ∧
     ret r = 1 ∧
     events_since Scenario.boot (world_after r) =
     [ Ev (Socket AF_INET SOCK_STREAM 6) (Err 24);
       Ev (Socket AF_INET SOCK_STREAM 6) (Ret 3);
       Ev (Connect 3 (ai_addr (Scenario.v4 1))) (Ret 0);
       Ev (SetFl 3 0) (Ret 0);
       Ev (SetSockOpt 3 SO_RCVTIMEO 0) (Ret 0);
       Ev (SetSockOpt 3 SO_SNDTIMEO 0) (Ret 0) ]).
Proof.
  split.
  - intros fuel. unfold tcp_connect. simpl.
    by rewrite connect_loop_starved.
  - eexists. split; [vm_compute; reflexivity|].
    split; by vm_compute.
Qed.

(** The address handed to [bind]: the one supplied when the record asks
    for AF_INET, the zeroed structure for any other requested family. *)
Lemma local_addr_of_cases (E : environment) (tcp : tcp_t) (s : string) :
  s ≠ EmptyString →
  (tcp_ai_family tcp = AF_INET →
   local_addr_of E tcp (Some s) = mk_sockaddr_in AF_INET 0 (inet_addr E s)) ∧
  (tcp_ai_family tcp ≠ AF_INET →
   local_addr_of E tcp (Some s) = mk_sockaddr_in 0 0 0).
Proof.
  intros Hs. unfold local_addr_of. destruct s as [|c s]; [done|]. split.
  - by intros ->.
  - intros Hne. apply Z.eqb_neq in Hne. by rewrite Hne.
Qed.

(** C3, on the code: [local_addr] is filled in only when the connection
    record asks for AF_INET, yet the bind is made for every IPv4 candidate.
    With the family left unspecified and the local address 192.168.1.5,
    the socket of an IPv4 candidate is bound to the all-zero address. *)
Theorem tcp_connect_binds_unset_address :
  inet_addr Scenario.calm "192.168.1.5" = Scenario.lan_address ∧
  ∃ r,
    tcp_connect 1 Scenario.calm false (Scenario.fresh_tcp AF_UNSPEC)
      "example.org" 80 0 (Some "192.168.1.5") "" 0 Scenario.boot = Some r ∧
    ret r = 1 ∧
    events_since Scenario.boot (world_after r) =
    [ Ev (Socket AF_INET SOCK_STREAM 6) (Ret 3);
      Ev (Bind 3 (mk_sockaddr_in 0 0 0)) (Ret 0);
      Ev (Connect 3 (ai_addr (Scenario.v4 1))) (Ret 0);
      Ev (SetFl 3 0) (Ret 0);
      Ev (SetSockOpt 3 SO_RCVTIMEO 0) (Ret 0);
      Ev (SetSockOpt 3 SO_SNDTIMEO 0) (Ret 0) ].
Proof.
  split; [reflexivity|].
  eexists. split; [vm_compute; reflexivity|].
  split; by vm_compute.
Qed.

(** * Further properties *)

(** ** The calls of one turn *)

Lemma connect_addrs_app (a b : list event) :
  connect_addrs (a ++ b) = connect_addrs a ++ connect_addrs b.
Proof.
  induction a as [|[c x] a IH]; [done|].
  destruct c; simpl; by rewrite ?IH.
Qed.

Lemma connect_step_calls (E : environment) (local_if : option string)
    (local_addr : sockaddr_in) (io_timeout : Z)
    (ai : addrinfo) (next : list addrinfo) (w : world) :
  let st := connect_step E local_if local_addr io_timeout ai next w in
  let evs := events_since w (now st) in
  connect_addrs evs `sublist_of` [ai_addr ai] ∧
  (sock_fd st = -1 → gai_result st = ai :: next → connect_addrs evs = []) ∧
  (sock_fd st ≠ -1 →
   connect_addrs evs = [ai_addr ai] ∧
   ∃ ans, Ev (Connect (sock_fd st) (ai_addr ai)) ans ∈ evs) ∧
  (is_set local_if = false ∨ ai_family ai ≠ AF_INET → free_of is_bind evs) ∧
  binds_to local_addr evs ∧
  free_of is_tls evs.
Proof.
  turn_cases.
  all: rewrite ?sys_close_open by (simpl; apply just_opened).
  all: unfold events_since, clock, sys_setfl; simpl.
  all: rewrite <- ?app_assoc, drop_app_length; simpl.
  all: split_and!.
  all: try (repeat constructor; fail).
  all: try (intros; simplify_eq; done).
  all: try (intros _ Hg; by apply (f_equal length) in Hg; simpl in Hg; lia).
  all: try (pose proof (lowest_free_nonneg (fds w)); intros; lia).
  all: try (intros _; split; [done|]; eexists;
            repeat first [apply list_elem_of_here|apply list_elem_of_further]).
  all: try (repeat constructor; simpl; intros; by simplify_eq).
  all: try (intros [Hs|Hf];
            [ match goal with H : _ && _ = true |- _ =>
                rewrite Hs, andb_false_r in H; discriminate H end
            | match goal with H : _ && _ = true |- _ =>
                apply Z.eqb_neq in Hf; rewrite Hf in H; discriminate H end ]).
Qed.

(** A turn touches the blocking mode of the descriptor it opened only, and
    hands a connected socket back in blocking mode. *)
Lemma connect_step_modes (E : environment) (local_if : option string)
    (local_addr : sockaddr_in) (io_timeout : Z)
    (ai : addrinfo) (next : list addrinfo) (w : world) :
  let st := connect_step E local_if local_addr io_timeout ai next w in
  (sock_fd st ≠ -1 → sock_fd st ∉ nonblock (now st)) ∧
  (∀ x, x ∈ fds w → x ∈ nonblock (now st) ↔ x ∈ nonblock w).
Proof.
  pose proof (lowest_free_fresh (fds w)) as Hfresh.
  turn_cases.
  all: rewrite ?sys_close_open by (simpl; apply just_opened).
  all: unfold sys_setfl; simpl.
  all: split; [try done|].
  all: try (intros _; rewrite !elem_of_difference, elem_of_singleton;
            by intros [_ ?]).
  all: try (intros x Hx;
            assert (x ≠ lowest_free (fds w)) by (by intros ->);
            rewrite ?elem_of_difference, ?elem_of_union, ?elem_of_difference,
              ?elem_of_singleton; intuition congruence).
Qed.

(** ** The calls of the whole loop *)

Lemma events_since_refl (w : world) : events_since w w = [].
Proof. unfold events_since, clock. by rewrite drop_all. Qed.

(** What holds of the calls of every turn holds of the calls of the loop. *)
Lemma connect_loop_Forall (P : event → Prop) (fuel : nat) (E : environment)
    (local_if : option string) (local_addr : sockaddr_in) (io_timeout : Z)
    (st st' : attempt) :
  (∀ ai next w,
     Forall P (events_since w
                 (now (connect_step E local_if local_addr io_timeout
                         ai next w)))) →
  sock_fd st = -1 →
  connect_loop fuel E local_if local_addr io_timeout st = Some st' →
  Forall P (events_since (now st) (now st')).
Proof.
  intros Hturn. revert st.
  induction fuel as [|f IH]; intros st Hfd; simpl;
    destruct (gai_result st) as [|ai next] eqn:Hg; rewrite ?Hfd; simpl;
    intros Hrun; simplify_eq; rewrite ?events_since_refl; try done.
  pose proof (connect_step_summary E local_if local_addr io_timeout
                ai next (now st)) as (e1 & Hran1 & _).
  pose proof (Hturn ai next (now st)) as HP1.
  set (st1 := connect_step E local_if local_addr io_timeout ai next (now st))
    in *.
  rewrite (ran_events_since _ _ _ Hran1) in HP1.
  destruct (decide (sock_fd st1 = -1)) as [Hfd1|Hfd1].
  - destruct (connect_loop_summary _ _ _ _ _ _ _ Hfd1 Hrun)
      as (e2 & Hran2 & _).
    pose proof (IH st1 Hfd1 Hrun) as HP2.
    rewrite (ran_events_since _ _ _ Hran2) in HP2.
    rewrite (ran_events_since _ _ _ (ran_trans _ _ _ _ _ Hran1 Hran2)).
    by apply Forall_app.
  - rewrite connect_loop_exit in Hrun by lia. simplify_eq.
    by rewrite (ran_events_since _ _ _ Hran1).
Qed.

(** The loop calls [connect] on the candidates in the order of the list,
    on each at most once, and ends on the one it connected. *)
Lemma connect_loop_order (fuel : nat) (E : environment)
    (local_if : option string) (local_addr : sockaddr_in) (io_timeout : Z)
    (st st' : attempt) :
  sock_fd st = -1 →
  connect_loop fuel E local_if local_addr io_timeout st = Some st' →
  let evs := events_since (now st) (now st') in
  connect_addrs evs `sublist_of` (ai_addr <$> gai_result st) ∧
  (sock_fd st' ≠ -1 →
   ∃ a ans, last (connect_addrs evs) = Some a ∧
            Ev (Connect (sock_fd st') a) ans ∈ evs).
Proof.
  revert st.
  induction fuel as [|f IH]; intros st Hfd; simpl;
    destruct (gai_result st) as [|ai next] eqn:Hg; rewrite ?Hfd; simpl;
    intros Hrun; simplify_eq; rewrite ?events_since_refl; try done.
  pose proof (connect_step_summary E local_if local_addr io_timeout
                ai next (now st)) as (e1 & Hran1 & _ & Hcases).
  pose proof (connect_step_calls E local_if local_addr io_timeout
                ai next (now st)) as (Hsub1 & Hstay1 & Hconn1 & _).
  set (st1 := connect_step E local_if local_addr io_timeout ai next (now st))
    in *.
  rewrite (ran_events_since _ _ _ Hran1) in Hsub1, Hstay1, Hconn1.
  destruct (decide (sock_fd st1 = -1)) as [Hfd1|Hfd1].
  - destruct (connect_loop_summary _ _ _ _ _ _ _ Hfd1 Hrun)
      as (e2 & Hran2 & _).
    destruct (IH st1 Hfd1 Hrun) as [Hsub2 Hlast2].
    rewrite (ran_events_since _ _ _ Hran2) in Hsub2, Hlast2.
    rewrite (ran_events_since _ _ _ (ran_trans _ _ _ _ _ Hran1 Hran2)).
    rewrite connect_addrs_app. split.
    + destruct Hcases as [(_ & _ & _ & [Hnext|Hsame])|(Hnn & _)]; [| |lia].
      * rewrite Hnext in Hsub2.
        by apply (sublist_app _ [ai_addr ai]).
      * rewrite (Hstay1 Hfd1 Hsame). by rewrite Hsame in Hsub2.
    + intros Hfd'. destruct (Hlast2 Hfd') as (a & ans & Hlast & Hin).
      exists a, ans. split; [|apply elem_of_app; by right].
      rewrite last_app, Hlast. done.
  - rewrite connect_loop_exit in Hrun by lia. simplify_eq.
    rewrite (ran_events_since _ _ _ Hran1).
    destruct (Hconn1 Hfd1) as [Haddrs [ans Hin]]. rewrite Haddrs. split.
    + apply sublist_skip, sublist_nil_l.
    + intros _. by exists (ai_addr ai), ans.
Qed.

(** ** After the loop *)

(** After the loop [tcp_connect] only talks to the TLS layer, closes the
    socket of a failed handshake and sets the two timeouts. *)
Lemma after_loop_calls (E : environment) (HAVE_SSL : bool) (tcp : tcp_t)
    (hostname : string) (port secure : Z) (message : string)
    (io_timeout : Z) (st : attempt) :
  let r := after_loop E HAVE_SSL tcp hostname port secure message
             io_timeout st in
  let evs := events_since (now st) (world_after r) in
  ran (now st) (world_after r) evs ∧
  connect_addrs evs = [] ∧
  free_of is_bind evs ∧
  (HAVE_SSL = false ∨ secure = 0 → free_of is_tls evs).
Proof.
  intros r evs. split.
  { destruct (after_loop_ran E HAVE_SSL tcp hostname port secure message
                io_timeout st) as (evs' & Hran & _).
    fold r in Hran. subst evs. by rewrite (ran_events_since _ _ _ Hran). }
  subst evs r.
  unfold after_loop, connected, ssl_connect, sys_close, sys_setsockopt.
  repeat (case_match; simplify_eq/=).
  all: unfold events_since, clock; simpl.
  all: rewrite <- ?app_assoc, ?drop_app_length, ?drop_all; simpl.
  all: split_and!; try done; try (repeat constructor; fail).
  all: intros [-> | ->]; simpl in *; try done.
  all: try (repeat constructor; fail).
  all: match goal with
       | H : _ && _ = true |- _ => rewrite andb_false_r in H; discriminate H
       end.
Qed.

(** ** The calls of [tcp_connect] *)

(** The two ways through [tcp_connect]: the name does not resolve and
    nothing is called, or the loop runs and the rest follows it. *)
Lemma tcp_connect_split (fuel : nat) (E : environment) (HAVE_SSL : bool)
    (tcp : tcp_t) (hostname : string) (port secure : Z)
    (local_if : option string) (message : string) (io_timeout : Z)
    (w : world) (r : result) :
  tcp_connect fuel E HAVE_SSL tcp hostname port secure local_if message
    io_timeout w = Some r →
  (∃ code,
     resolver E hostname (portstr_of port) (tcp_ai_family tcp)
       SOCK_STREAM AI_ADDRCONFIG 0 = GaiFail code ∧
     r = mk_result (-1) tcp (tcp_error hostname port (gai_strerror E code)) w)
  ∨ (∃ first rest st,
       resolver E hostname (portstr_of port) (tcp_ai_family tcp)
         SOCK_STREAM AI_ADDRCONFIG 0 = GaiOk first rest ∧
       connect_loop fuel E local_if (local_addr_of E tcp local_if)
         io_timeout (mk_attempt (-1) (first :: rest) w) = Some st ∧
       r = after_loop E HAVE_SSL tcp hostname port secure message
             io_timeout st ∧
       events_since w (world_after r)
       = events_since w (now st) ++ events_since (now st) (world_after r)).
Proof.
  unfold tcp_connect.
  destruct (resolver E _ _ _ _ _ _) as [code|first rest].
  - intros [= <-]. left. by exists code.
  - destruct (connect_loop _ _ _ _ _ _) as [st|] eqn:Hloop; [|done].
    intros [= <-]. right. exists first, rest, st. split_and!; try done.
    apply connect_loop_summary in Hloop as (e1 & Hran1 & _); [|done].
    destruct (after_loop_calls E HAVE_SSL tcp hostname port secure message
                io_timeout st) as (Hran2 & _).
    simpl in Hran1.
    rewrite (ran_events_since _ _ _ (ran_trans _ _ _ _ _ Hran1 Hran2)).
    by rewrite (ran_events_since _ _ _ Hran1).
Qed.

(** X1.  [tcp_connect] calls [connect] on the resolved candidates in the
    order the resolver gave them: the addresses connected to, in the order
    of the calls, are the resolver's list with some candidates left out.
    No candidate is connected to twice and none out of turn.  When 1 is
    returned, the descriptor in the record is the one the last [connect]
    was called on. *)
Theorem tcp_connect_in_resolver_order (fuel : nat) (E : environment)
    (HAVE_SSL : bool) (tcp : tcp_t) (hostname : string) (port secure : Z)
    (local_if : option string) (message : string) (io_timeout : Z)
    (w : world) (r : result) (first : addrinfo) (rest : list addrinfo) :
  resolver E hostname (portstr_of port) (tcp_ai_family tcp)
    SOCK_STREAM AI_ADDRCONFIG 0 = GaiOk first rest →
  tcp_connect fuel E HAVE_SSL tcp hostname port secure local_if message
    io_timeout w = Some r →
  connect_addrs (events_since w (world_after r))
    `sublist_of` (ai_addr <$> (first :: rest)) ∧
  (ret r = 1 →
   ∃ a ans,
     last (connect_addrs (events_since w (world_after r))) = Some a ∧
     Ev (Connect (tcp_fd (tcp_after r)) a) ans
       ∈ events_since w (world_after r)).
Proof.
  intros Hres Hrun.
  apply tcp_connect_split in Hrun
    as [(code & Hfail & _)|(f & l & st & Hok & Hloop & -> & Hevs)];
    [congruence|].
  rewrite Hok in Hres. simplify_eq. rewrite Hevs, connect_addrs_app.
  destruct (after_loop_calls E HAVE_SSL tcp hostname port secure message
              io_timeout st) as (_ & -> & _).
  rewrite app_nil_r.
  apply connect_loop_order in Hloop as [Hsub Hlast]; [|done].
  simpl in Hsub, Hlast. split; [done|].
  intros Hret.
  assert (Hfd : sock_fd st ≠ -1 ∧
                tcp_fd (tcp_after (after_loop E HAVE_SSL tcp hostname port
                                     secure message io_timeout st))
                = sock_fd st).
  { revert Hret. unfold after_loop, connected, ssl_connect.
    destruct (sock_fd st =? -1) eqn:Hfd; [done|].
    apply Z.eqb_neq in Hfd.
    repeat (case_match; simplify_eq/=); done. }
  destruct Hfd as [Hfd ->].
  destruct (Hlast Hfd) as (a & ans & Ha & Hin).
  exists a, ans. split; [done|]. apply elem_of_app. by left.
Qed.

(** The loop leaves the blocking mode of the descriptors that were open
    alone, and ends with its socket, if it has one, in blocking mode. *)
Lemma connect_loop_modes (fuel : nat) (E : environment)
    (local_if : option string) (local_addr : sockaddr_in) (io_timeout : Z)
    (st st' : attempt) :
  sock_fd st = -1 →
  connect_loop fuel E local_if local_addr io_timeout st = Some st' →
  (sock_fd st' ≠ -1 → sock_fd st' ∉ nonblock (now st')) ∧
  (∀ x, x ∈ fds (now st) →
        x ∈ nonblock (now st') ↔ x ∈ nonblock (now st)).
Proof.
  revert st.
  induction fuel as [|f IH]; intros st Hfd; simpl;
    destruct (gai_result st) as [|ai next] eqn:Hg; rewrite ?Hfd; simpl;
    intros Hrun; simplify_eq; try done.
  pose proof (connect_step_summary E local_if local_addr io_timeout
                ai next (now st)) as (e1 & _ & _ & Hcases).
  pose proof (connect_step_modes E local_if local_addr io_timeout
                ai next (now st)) as [Hblock1 Hframe1].
  set (st1 := connect_step E local_if local_addr io_timeout ai next (now st))
    in *.
  destruct (decide (sock_fd st1 = -1)) as [Hfd1|Hfd1].
  - destruct (IH st1 Hfd1 Hrun) as [Hblock2 Hframe2].
    split; [done|]. intros x Hx.
    destruct Hcases as [(_ & Hfds & _)|(Hnn & _)]; [|lia].
    rewrite Hframe2 by (by rewrite Hfds). by apply Hframe1.
  - rewrite connect_loop_exit in Hrun by lia. by simplify_eq.
Qed.

(** The state in which [tcp_connect] returns 1. *)
Lemma tcp_connect_success (fuel : nat) (E : environment)
    (HAVE_SSL : bool) (tcp : tcp_t) (hostname : string) (port secure : Z)
    (local_if : option string) (message : string) (io_timeout : Z)
    (w : world) (r : result) :
  tcp_connect fuel E HAVE_SSL tcp hostname port secure local_if message
    io_timeout w = Some r →
  ret r = 1 →
  0 ≤ tcp_fd (tcp_after r) ∧
  (tcp_fd (tcp_after r) ∉ fds w) ∧
  fds (world_after r) = {[tcp_fd (tcp_after r)]} ∪ fds w ∧
  (tcp_fd (tcp_after r) ∉ nonblock (world_after r)) ∧
  tcp_ai_family (tcp_after r) = tcp_ai_family tcp ∧
  message_after r = message ∧
  (if HAVE_SSL && negb (secure =? 0)
   then ∃ s, tcp_ssl (tcp_after r) = Some s ∧ s ∈ sessions (world_after r)
   else tcp_ssl (tcp_after r) = tcp_ssl tcp) ∧
  [ Ev (SetSockOpt (tcp_fd (tcp_after r)) SO_RCVTIMEO io_timeout) (Ret 0);
    Ev (SetSockOpt (tcp_fd (tcp_after r)) SO_SNDTIMEO io_timeout) (Ret 0) ]
    `suffix_of` events_since w (world_after r).
Proof.
  intros Hrun Hret.
  apply tcp_connect_split in Hrun
    as [(code & _ & ->)|(f & l & st & _ & Hloop & -> & Hevs)]; [done|].
  rewrite Hevs. clear Hevs.
  apply connect_loop_modes in Hloop as Hmodes; [|done].
  destruct Hmodes as [Hblock _].
  apply connect_loop_summary in Hloop
    as (e1 & _ & _ & [(Hfd & _)|(Hnn & Hfresh & Hfds & _)]); [| |done].
  - revert Hret. unfold after_loop. by rewrite Hfd.
  - simpl in Hfresh, Hfds.
    assert (Hfd : (sock_fd st =? -1) = false) by lia.
    specialize (Hblock ltac:(lia)).
    revert Hret. unfold after_loop, connected, ssl_connect, sys_setsockopt.
    rewrite Hfd.
    destruct (HAVE_SSL && negb (secure =? 0)).
    all: repeat (case_match; simplify_eq/=); try done; intros _.
    all: unfold events_since at 2; unfold clock; simpl.
    all: rewrite <- ?app_assoc, ?drop_app_length; simpl.
    all: split_and!; try done.
    + eexists. split; [done|].
      apply elem_of_union_l. by apply elem_of_singleton.
    + apply suffix_app_r. by exists [Ev (SslConnect (sock_fd st) hostname)
                                        (Ret 1)].
    + by apply suffix_app_r.
Qed.

(** X2.  When [tcp_connect] returns 1, the descriptor it stored in the
    record is a non-negative one that was not open before, is open now and
    is in blocking mode, whatever the timeout; the family tag and the
    message buffer are as they were; and the last two calls made set the
    receive and the send timeout of that descriptor to [io_timeout]. *)
Theorem tcp_connect_success_state (fuel : nat) (E : environment)
    (HAVE_SSL : bool) (tcp : tcp_t) (hostname : string) (port secure : Z)
    (local_if : option string) (message : string) (io_timeout : Z)
    (w : world) (r : result) :
  tcp_connect fuel E HAVE_SSL tcp hostname port secure local_if message
    io_timeout w = Some r →
  ret r = 1 →
  0 ≤ tcp_fd (tcp_after r) ∧
  (tcp_fd (tcp_after r) ∉ fds w) ∧
  tcp_fd (tcp_after r) ∈ fds (world_after r) ∧
  (tcp_fd (tcp_after r) ∉ nonblock (world_after r)) ∧
  tcp_ai_family (tcp_after r) = tcp_ai_family tcp ∧
  message_after r = message ∧
  [ Ev (SetSockOpt (tcp_fd (tcp_after r)) SO_RCVTIMEO io_timeout) (Ret 0);
    Ev (SetSockOpt (tcp_fd (tcp_after r)) SO_SNDTIMEO io_timeout) (Ret 0) ]
    `suffix_of` events_since w (world_after r).
Proof.
  intros Hrun Hret.
  destruct (tcp_connect_success _ _ _ _ _ _ _ _ _ _ _ _ Hrun Hret)
    as (Hnn & Hfresh & Hfds & Hblock & Hfam & Hmsg & _ & Hlast).
  split_and!; try done. rewrite Hfds. apply just_opened.
Qed.

(** What holds of the calls of every turn and of the calls after the loop
    holds of the calls of [tcp_connect]. *)
Lemma tcp_connect_Forall (P : event → Prop) (fuel : nat) (E : environment)
    (HAVE_SSL : bool) (tcp : tcp_t) (hostname : string) (port secure : Z)
    (local_if : option string) (message : string) (io_timeout : Z)
    (w : world) (r : result) :
  (∀ ai next w0,
     Forall P (events_since w0
                 (now (connect_step E local_if (local_addr_of E tcp local_if)
                         io_timeout ai next w0)))) →
  (∀ st,
     Forall P (events_since (now st)
                 (world_after (after_loop E HAVE_SSL tcp hostname port
                                 secure message io_timeout st)))) →
  tcp_connect fuel E HAVE_SSL tcp hostname port secure local_if message
    io_timeout w = Some r →
  Forall P (events_since w (world_after r)).
Proof.
  intros Hturn Hafter Hrun.
  apply tcp_connect_split in Hrun
    as [(code & _ & ->)|(f & l & st & _ & Hloop & -> & ->)].
  - simpl. by rewrite events_since_refl.
  - apply Forall_app. split; [|apply Hafter].
    by apply (connect_loop_Forall P) in Hloop.
Qed.

(** X3.  With no local interface address ([local_if] NULL or empty)
    [tcp_connect] never calls [bind]. *)
Theorem tcp_connect_unbound (fuel : nat) (E : environment)
    (HAVE_SSL : bool) (tcp : tcp_t) (hostname : string) (port secure : Z)
    (local_if : option string) (message : string) (io_timeout : Z)
    (w : world) (r : result) :
  is_set local_if = false →
  tcp_connect fuel E HAVE_SSL tcp hostname port secure local_if message
    io_timeout w = Some r →
  free_of is_bind (events_since w (world_after r)).
Proof.
  intros Hunset. apply tcp_connect_Forall.
  - intros ai next w0.
    apply (connect_step_calls E local_if (local_addr_of E tcp local_if)
             io_timeout ai next w0). by left.
  - intros st.
    apply (after_loop_calls E HAVE_SSL tcp hostname port secure message
             io_timeout st).
Qed.

Lemma free_of_bind_binds_to (a : sockaddr_in) (evs : list event) :
  free_of is_bind evs → binds_to a evs.
Proof.
  unfold free_of, binds_to. intros Hfree.
  eapply Forall_impl; [exact Hfree|].
  intros [c x] Hc fd b Hb. simpl in *. by subst c.
Qed.

(** X4.  When the connection record asks for AF_INET, every [bind] that
    [tcp_connect] makes is given the address family AF_INET, port 0 and the
    address [inet_addr] reads from [local_if]. *)
Theorem tcp_connect_binds_supplied (fuel : nat) (E : environment)
    (HAVE_SSL : bool) (tcp : tcp_t) (hostname : string) (port secure : Z)
    (s : string) (message : string) (io_timeout : Z)
    (w : world) (r : result) :
  tcp_ai_family tcp = AF_INET →
  tcp_connect fuel E HAVE_SSL tcp hostname port secure (Some s) message
    io_timeout w = Some r →
  binds_to (mk_sockaddr_in AF_INET 0 (inet_addr E s))
    (events_since w (world_after r)).
Proof.
  intros Hfam. apply tcp_connect_Forall.
  - intros ai next w0. destruct (decide (s = EmptyString)) as [->|Hs].
    + apply free_of_bind_binds_to.
      apply (connect_step_calls E (Some EmptyString)
               (local_addr_of E tcp (Some EmptyString)) io_timeout
               ai next w0). by left.
    + rewrite <- (proj1 (local_addr_of_cases E tcp s Hs) Hfam).
      apply (connect_step_calls E (Some s) (local_addr_of E tcp (Some s))
               io_timeout ai next w0).
  - intros st. apply free_of_bind_binds_to.
    apply (after_loop_calls E HAVE_SSL tcp hostname port secure message
             io_timeout st).
Qed.

(** X5.  Without HAVE_SSL, or with [secure] zero, [tcp_connect] makes no
    call to the TLS layer, leaves the session slot of the record as it was
    and leaves the live sessions as they were. *)
Theorem tcp_connect_plain (fuel : nat) (E : environment)
    (HAVE_SSL : bool) (tcp : tcp_t) (hostname : string) (port secure : Z)
    (local_if : option string) (message : string) (io_timeout : Z)
    (w : world) (r : result) :
  HAVE_SSL = false ∨ secure = 0 →
  tcp_connect fuel E HAVE_SSL tcp hostname port secure local_if message
    io_timeout w = Some r →
  free_of is_tls (events_since w (world_after r)) ∧
  tcp_ssl (tcp_after r) = tcp_ssl tcp ∧
  sessions (world_after r) = sessions w.
Proof.
  intros Hplain Hrun. split.
  - revert Hrun. apply tcp_connect_Forall.
    + intros ai next w0.
      apply (connect_step_calls E local_if (local_addr_of E tcp local_if)
               io_timeout ai next w0).
    + intros st.
      by apply (after_loop_calls E HAVE_SSL tcp hostname port secure message
                  io_timeout st).
  - apply tcp_connect_split in Hrun
      as [(code & _ & ->)|(f & l & st & _ & Hloop & -> & _)]; [done|].
    apply connect_loop_summary in Hloop as (e1 & _ & Hs & _); [|done].
    simpl in Hs. rewrite <- Hs.
    unfold after_loop, connected, sys_setsockopt, sys_close.
    assert (Hoff : HAVE_SSL && negb (secure =? 0) = false).
    { destruct Hplain as [-> | ->]; [done|]. simpl. apply andb_false_r. }
    rewrite Hoff. by destruct (sock_fd st =? -1).
Qed.

(** After the loop only the socket of this call can change state. *)
Lemma after_loop_frame (E : environment) (HAVE_SSL : bool) (tcp : tcp_t)
    (hostname : string) (port secure : Z) (message : string)
    (io_timeout : Z) (st : attempt) (x : Z) :
  x ≠ sock_fd st →
  let r := after_loop E HAVE_SSL tcp hostname port secure message
             io_timeout st in
  (x ∈ fds (world_after r) ↔ x ∈ fds (now st)) ∧
  (x ∈ nonblock (world_after r) ↔ x ∈ nonblock (now st)).
Proof.
  intros Hx.
  unfold after_loop, connected, ssl_connect, sys_close, sys_setsockopt.
  repeat (case_match; simplify_eq/=); try done.
  rewrite !elem_of_difference, elem_of_singleton. intuition congruence.
Qed.

(** X6.  [tcp_connect] leaves every descriptor that was open before the
    call open, and in the blocking mode it had. *)
Theorem tcp_connect_frame (fuel : nat) (E : environment)
    (HAVE_SSL : bool) (tcp : tcp_t) (hostname : string) (port secure : Z)
    (local_if : option string) (message : string) (io_timeout : Z)
    (w : world) (r : result) (x : Z) :
  tcp_connect fuel E HAVE_SSL tcp hostname port secure local_if message
    io_timeout w = Some r →
  x ∈ fds w →
  x ∈ fds (world_after r) ∧
  (x ∈ nonblock (world_after r) ↔ x ∈ nonblock w).
Proof.
  intros Hrun Hx.
  apply tcp_connect_split in Hrun
    as [(code & _ & ->)|(f & l & st & _ & Hloop & -> & _)]; [done|].
  apply connect_loop_modes in Hloop as Hmodes; [|done].
  destruct Hmodes as [_ Hframe]. specialize (Hframe x Hx). simpl in Hframe.
  apply connect_loop_summary in Hloop
    as (e1 & _ & _ & [(Hfd & _ & Hfds & _)|(Hnn & Hfresh & Hfds & _)]);
    [| |done]; simpl in *.
  - unfold after_loop. rewrite Hfd. simpl. by rewrite Hfds.
  - assert (Hne : x ≠ sock_fd st) by (by intros ->).
    destruct (after_loop_frame E HAVE_SSL tcp hostname port secure message
                io_timeout st x Hne) as [-> ->].
    split; [|done]. rewrite Hfds. apply elem_of_union. by right.
Qed.

(** X7.  A failed TLS handshake ends [tcp_connect]: if the log of the call
    holds a handshake on [fd] that returned NULL, then -1 is returned, the
    only call made after the handshake is the [close] of [fd], no further
    candidate being tried; the session slot of the record is NULL and the
    descriptor table is the one the call started with. *)
Theorem tcp_connect_handshake_failure (fuel : nat) (E : environment)
    (HAVE_SSL : bool) (tcp : tcp_t) (hostname : string) (port secure : Z)
    (local_if : option string) (message : string) (io_timeout : Z)
    (w : world) (r : result) (fd : Z) (host : string) :
  tcp_connect fuel E HAVE_SSL tcp hostname port secure local_if message
    io_timeout w = Some r →
  Ev (SslConnect fd host) (Ret 0) ∈ events_since w (world_after r) →
  ret r = -1 ∧
  tcp_ssl (tcp_after r) = None ∧
  fds (world_after r) = fds w ∧
  [Ev (SslConnect fd host) (Ret 0); Ev (Close fd) (Ret 0)]
    `suffix_of` events_since w (world_after r).
Proof.
  intros Hrun Hin.
  apply tcp_connect_split in Hrun
    as [(code & _ & ->)|(f & l & st & _ & Hloop & -> & Hevs)].
  { simpl in Hin. rewrite events_since_refl in Hin.
    by apply elem_of_nil in Hin. }
  rewrite Hevs in Hin |- *. clear Hevs.
  apply elem_of_app in Hin as [Hin|Hin].
  { exfalso.
    apply (connect_loop_Forall (λ ev, is_tls (ev_call ev) = false))
      in Hloop; [| |done].
    - rewrite Forall_forall in Hloop. by apply Hloop in Hin.
    - intros ai next w0.
      apply (connect_step_calls E local_if (local_addr_of E tcp local_if)
               io_timeout ai next w0). }
  apply connect_loop_summary in Hloop
    as (e1 & _ & _ & [(Hfd & _)|(Hnn & Hfresh & Hfds & _)]);
    [| |done]; simpl in *; revert Hin.
  - unfold after_loop. rewrite Hfd. simpl. rewrite events_since_refl.
    by intros ?%elem_of_nil.
  - assert (Hfd : (sock_fd st =? -1) = false) by lia.
    unfold after_loop, connected, ssl_connect, sys_setsockopt.
    rewrite Hfd.
    repeat (case_match; simplify_eq/=).
    all: rewrite ?sys_close_open by (simpl; rewrite Hfds; apply just_opened).
    all: unfold events_since at 1 3; unfold clock; simpl.
    all: rewrite <- ?app_assoc, ?drop_app_length; simpl.
    all: intros Hin.
    all: repeat (apply elem_of_cons in Hin as [Hin|Hin];
                 [try discriminate Hin|]).
    all: try (by apply elem_of_nil in Hin).
    injection Hin as -> ->.
    split_and!; [done|done| |by apply suffix_app_r].
    rewrite Hfds. by apply open_then_closed.
Qed.

(** ** When no [bind] succeeds *)

Lemma connect_step_bind_refused (E : environment) (local_if : option string)
    (local_addr : sockaddr_in) (io_timeout : Z)
    (ai : addrinfo) (next : list addrinfo) (w : world) :
  ai_family ai = AF_INET →
  is_set local_if = true →
  (∀ t fd a, is_Some (bind_fault E t fd a)) →
  let st := connect_step E local_if local_addr io_timeout ai next w in
  sock_fd st = -1 ∧
  connect_addrs (events_since w (now st)) = [] ∧
  (gai_result st = next ∨ gai_result st = ai :: next).
Proof.
  intros Hfam Hset Hbind.
  unfold connect_step, sys_socket, sys_bind.
  destruct (socket_fault E _ _ _ _) as [e|]; simpl.
  { unfold events_since, clock. simpl. rewrite drop_app_length.
    split_and!; [done|done|by right]. }
  rewrite fresh_not_minus_one, Hfam, Hset. simpl.
  destruct (Hbind (clock (logged (Socket AF_INET (ai_socktype ai)
                                    (ai_protocol ai))
                            (lowest_free (fds w))
                            (with_nonblock
                               (nonblock w ∖ {[lowest_free (fds w)]})
                               (with_fds ({[lowest_free (fds w)]} ∪ fds w)
                                  w))))
              (lowest_free (fds w)) local_addr) as [e ->].
  simpl. rewrite sys_close_open by (simpl; apply just_opened).
  unfold events_since, clock. simpl.
  rewrite <- !app_assoc, drop_app_length. simpl.
  split_and!; [done|done|by left].
Qed.

Lemma connect_loop_bind_refused (fuel : nat) (E : environment)
    (local_if : option string) (local_addr : sockaddr_in) (io_timeout : Z)
    (st st' : attempt) :
  is_set local_if = true →
  (∀ t fd a, is_Some (bind_fault E t fd a)) →
  Forall (λ ai, ai_family ai = AF_INET) (gai_result st) →
  sock_fd st = -1 →
  connect_loop fuel E local_if local_addr io_timeout st = Some st' →
  sock_fd st' = -1 ∧
  connect_addrs (events_since (now st) (now st')) = [].
Proof.
  intros Hset Hbind. revert st.
  induction fuel as [|f IH]; intros st Hv4 Hfd; simpl;
    destruct (gai_result st) as [|ai next] eqn:Hg; rewrite ?Hfd; simpl;
    intros Hrun; simplify_eq; rewrite ?events_since_refl; try done.
  apply Forall_cons in Hv4 as [Hfam Hv4].
  pose proof (connect_step_summary E local_if local_addr io_timeout
                ai next (now st)) as (e1 & Hran1 & _).
  pose proof (connect_step_bind_refused E local_if local_addr io_timeout
                ai next (now st) Hfam Hset Hbind) as (Hfd1 & Hnone1 & Hg1).
  set (st1 := connect_step E local_if local_addr io_timeout ai next (now st))
    in *.
  destruct (connect_loop_summary _ _ _ _ _ _ _ Hfd1 Hrun)
    as (e2 & Hran2 & _).
  destruct (IH st1) as [Hfd' Hnone2]; [|done|done|].
  { destruct Hg1 as [-> | ->]; [done|by constructor]. }
  split; [done|].
  rewrite (ran_events_since _ _ _ Hran1) in Hnone1.
  rewrite (ran_events_since _ _ _ Hran2) in Hnone2.
  rewrite (ran_events_since _ _ _ (ran_trans _ _ _ _ _ Hran1 Hran2)).
  by rewrite connect_addrs_app, Hnone1, Hnone2.
Qed.

(** X15.  When a local interface address is given, every candidate is
    IPv4 and no [bind] succeeds, [tcp_connect] never returns an unbound
    connection: it makes no [connect] call at all, and if it returns it
    returns -1 with [fd] as it was and a message built from [errno]. *)
Theorem tcp_connect_bind_refused (fuel : nat) (E : environment)
    (HAVE_SSL : bool) (tcp : tcp_t) (hostname : string) (port secure : Z)
    (local_if : option string) (message : string) (io_timeout : Z)
    (w : world) (r : result) (first : addrinfo) (rest : list addrinfo) :
  is_set local_if = true →
  resolver E hostname (portstr_of port) (tcp_ai_family tcp)
    SOCK_STREAM AI_ADDRCONFIG 0 = GaiOk first rest →
  Forall (λ ai, ai_family ai = AF_INET) (first :: rest) →
  (∀ t fd a, is_Some (bind_fault E t fd a)) →
  tcp_connect fuel E HAVE_SSL tcp hostname port secure local_if message
    io_timeout w = Some r →
  ret r = -1 ∧
  tcp_fd (tcp_after r) = tcp_fd tcp ∧
  connect_addrs (events_since w (world_after r)) = [] ∧
  message_after r
  = tcp_error hostname port (strerror E (errno (world_after r))).
Proof.
  intros Hset Hres Hv4 Hbind Hrun.
  apply tcp_connect_split in Hrun
    as [(code & Hfail & _)|(f & l & st & Hok & Hloop & -> & Hevs)];
    [congruence|].
  rewrite Hok in Hres. simplify_eq.
  apply connect_loop_bind_refused in Hloop as [Hfd Hnone]; try done.
  rewrite Hevs, connect_addrs_app. simpl in Hnone. rewrite Hnone.
  destruct (after_loop_calls E HAVE_SSL tcp hostname port secure message
              io_timeout st) as (_ & -> & _).
  unfold after_loop. rewrite Hfd. by simpl.
Qed.

Lemma tcp_connect_bind_refused_witness :
  ∃ r,
    tcp_connect 2 Cases.occupied false (Scenario.fresh_tcp AF_INET)
      "example.org" 80 0 (Some "192.168.1.5") "" 5 Scenario.boot = Some r ∧
    ret r = -1 ∧
    message_after r
    = "Unable to connect to server example.org:80: errno 99" +:+ newline.
Proof.
  eexists. split; [vm_compute; reflexivity|].
  match goal with
  | |- ret ?r = _ ∧ _ =>
      destruct (tcp_connect_bind_refused 2 Cases.occupied false
                  (Scenario.fresh_tcp AF_INET) "example.org" 80 0
                  (Some "192.168.1.5") "" 5 Scenario.boot r
                  (Scenario.v4 1) [Scenario.v4 2])
        as (Hret & _ & _ & Hmsg);
        [reflexivity|reflexivity|by repeat constructor
        |by (intros; eexists)|vm_compute; reflexivity|]
  end.
  split; [exact Hret|]. rewrite Hmsg. by vm_compute.
Defined.

(** ** Connecting, then closing *)

(** X11.  A plain connection that is opened and closed leaves no trace in
    the descriptor table.  If descriptor 0 is open when [tcp_connect] is
    called (so that the new descriptor is positive) and the connection has
    no session (no HAVE_SSL, or [secure] zero on a record without one),
    then after [tcp_connect] returned 1 and [tcp_close] ran, the descriptor
    table is the one before the connect, [fd] is -1, and the last call
    made was the successful [close] of the connection's descriptor. *)
Theorem tcp_connect_close_round_trip (fuel : nat) (E : environment)
    (HAVE_SSL : bool) (tcp : tcp_t) (hostname : string) (port secure : Z)
    (local_if : option string) (message : string) (io_timeout : Z)
    (w : world) (r : result) :
  tcp_connect fuel E HAVE_SSL tcp hostname port secure local_if message
    io_timeout w = Some r →
  ret r = 1 →
  0 ∈ fds w →
  HAVE_SSL = false ∨ (secure = 0 ∧ tcp_ssl tcp = None) →
  let closed := tcp_close HAVE_SSL (tcp_after r) (world_after r) in
  fds closed.2 = fds w ∧
  tcp_fd closed.1 = -1 ∧
  last (trace closed.2) = Some (Ev (Close (tcp_fd (tcp_after r))) (Ret 0)).
Proof.
  intros Hrun Hret Hzero Hplain.
  destruct (tcp_connect_success _ _ _ _ _ _ _ _ _ _ _ _ Hrun Hret)
    as (Hnn & Hfresh & Hfds & _ & _ & _ & Hslot & _).
  assert (Hpos : (0 <? tcp_fd (tcp_after r)) = true).
  { apply Z.ltb_lt.
    destruct (decide (tcp_fd (tcp_after r) = 0)) as [Heq|Hne]; [|lia].
    by rewrite Heq in Hfresh. }
  assert (Hnone : (if HAVE_SSL then tcp_ssl (tcp_after r) else None) = None).
  { destruct Hplain as [->|[-> Hnone]]; [done|].
    rewrite andb_false_r in Hslot. rewrite Hslot, Hnone.
    by destruct HAVE_SSL. }
  unfold tcp_close. rewrite Hpos, Hnone. simpl.
  rewrite sys_close_open by (rewrite Hfds; apply just_opened). simpl.
  split_and!; [|done|by rewrite last_snoc].
  rewrite Hfds. by apply open_then_closed.
Qed.

Lemma tcp_connect_close_round_trip_witness :
  ∃ r,
    tcp_connect 2 Cases.picky false (Scenario.fresh_tcp AF_INET)
      "example.org" 80 0 None "" 5 Scenario.boot = Some r ∧
    fds (tcp_close false (tcp_after r) (world_after r)).2
    = fds Scenario.boot.
Proof.
  eexists. split; [vm_compute; reflexivity|].
  apply (tcp_connect_close_round_trip 2 Cases.picky false
           (Scenario.fresh_tcp AF_INET) "example.org" 80 0 None "" 5
           Scenario.boot);
    [vm_compute; reflexivity|reflexivity|by vm_compute|by left].
Defined.

(** ** The interface lookup *)

Lemma substring_prefix (name extra : string) :
  String.substring 0 (String.length name) (name +:+ extra) = name.
Proof.
  induction name as [|c name IH]; simpl; [by destruct extra|by rewrite IH].
Qed.

Lemma substring_whole (name : string) :
  String.substring 0 (String.length name) name = name.
Proof. induction name as [|c name IH]; simpl; [done|by rewrite IH]. Qed.

(** X12.  [get_if_ip] looks an interface up by the first 15 characters of
    its name (IFNAMSIZ - 1): whatever follows a 15-character name changes
    nothing of what [get_if_ip] returns, writes or calls. *)
Theorem get_if_ip_truncates (E : environment) (name extra ip : string)
    (w : world) :
  String.length name = 15%nat →
  get_if_ip E (name +:+ extra) ip w = get_if_ip E name ip w.
Proof.
  intros Hlen. unfold get_if_ip.
  change (IFNAMSIZ - 1)%nat with 15%nat. rewrite <- Hlen.
  by rewrite substring_prefix, substring_whole.
Qed.

Lemma get_if_ip_truncates_witness :
  get_if_ip Scenario.calm "verylonginterfacename0" "" Scenario.boot
  = get_if_ip Scenario.calm "verylonginterfa" "" Scenario.boot.
Proof.
  apply (get_if_ip_truncates Scenario.calm "verylonginterfa" "cename0" ""
           Scenario.boot).
  reflexivity.
Defined.

Lemma octets (a b c d : Z) :
  0 ≤ a < 256 → 0 ≤ b < 256 → 0 ≤ c < 256 → 0 ≤ d < 256 →
  let x := a + 256 * b + 65536 * c + 16777216 * d in
  Z.land x 255 = a ∧
  Z.land (Z.shiftr x 8) 255 = b ∧
  Z.land (Z.shiftr x 16) 255 = c ∧
  Z.land (Z.shiftr x 24) 255 = d.
Proof.
  intros Ha Hb Hc Hd x.
  change 255 with (Z.ones 8).
  rewrite !Z.land_ones, !Z.shiftr_div_pow2 by lia.
  change (2 ^ 8) with 256. change (2 ^ 16) with 65536.
  change (2 ^ 24) with 16777216.
  subst x. split_and!; Z.div_mod_to_equations; lia.
Qed.

(** X13.  When the socket is created and the ioctl succeeds, [get_if_ip]
    returns 1 and the buffer holds the four octets of the interface
    address in memory order, in decimal, separated by dots; the descriptor
    table is as before. *)
Theorem get_if_ip_success (E : environment) (iface ip : string) (w : world)
    (a b c d : Z) :
  socket_fault E (clock w) PF_INET SOCK_DGRAM IPPROTO_IP = None →
  ifaddr_of E (S (clock w)) (String.substring 0 (IFNAMSIZ - 1) iface)
  = inr (a + 256 * b + 65536 * c + 16777216 * d) →
  0 ≤ a < 256 → 0 ≤ b < 256 → 0 ≤ c < 256 → 0 ≤ d < 256 →
  (get_if_ip E iface ip w).1
  = (1, pretty a +:+ "." +:+ pretty b +:+ "." +:+ pretty c +:+ "."
          +:+ pretty d) ∧
  fds (get_if_ip E iface ip w).2 = fds w.
Proof.
  intros Hsock Hif Ha Hb Hc Hd.
  destruct (octets a b c d Ha Hb Hc Hd) as (Ho1 & Ho2 & Ho3 & Ho4).
  unfold get_if_ip, sys_socket, sys_ioctl_ifaddr. rewrite Hsock.
  pose proof (lowest_free_nonneg (fds w)) as Hnn.
  pose proof (lowest_free_fresh (fds w)) as Hfresh.
  destruct (lowest_free (fds w) <? 0) eqn:Hneg; [lia|].
  assert (Hclock : ∀ c0 v X Y,
            clock (logged c0 v (with_nonblock X (with_fds Y w)))
            = S (clock w)).
  { intros. unfold clock. simpl. rewrite length_app. simpl. lia. }
  rewrite Hclock, Hif. simpl.
  rewrite sys_close_open by (simpl; apply just_opened). simpl.
  unfold inet_ntoa. rewrite Ho1, Ho2, Ho3, Ho4.
  split; [done|]. by apply open_then_closed.
Qed.

Lemma get_if_ip_success_witness :
  (get_if_ip Cases.wired "eth0" "" Scenario.boot).1 = (1, "192.168.1.5").
Proof.
  apply (get_if_ip_success Cases.wired "eth0" "" Scenario.boot 192 168 1 5);
    [reflexivity|reflexivity|lia|lia|lia|lia].
Defined.

(** ** The port handed to the resolver *)

Lemma substring_short (s : string) (n : nat) :
  (String.length s ≤ n)%nat → String.substring 0 n s = s.
Proof.
  revert n. induction s as [|c s IH]; intros n Hn; simpl.
  - by destruct n.
  - destruct n as [|n]; simpl in *; [lia|]. rewrite IH; [done|lia].
Qed.

Lemma append_empty (s : string) : s +:+ EmptyString = s.
Proof.
  induction s as [|c s IH]; [done|].
  exact (f_equal (String c) IH).
Qed.

(** A number below [10 ^ k] has at most [k] digits. *)
Lemma pretty_N_go_length (k : nat) (x : N) (s : string) :
  (x < 10 ^ N.of_nat k)%N →
  (String.length (pretty_N_go x s) ≤ String.length s + k)%nat.
Proof.
  revert x s. induction k as [|k IH]; intros x s Hx.
  - assert (x = 0%N) as -> by (simpl in Hx; lia).
    rewrite pretty_N_go_0. lia.
  - destruct (decide (x = 0%N)) as [->|Hpos].
    { rewrite pretty_N_go_0. lia. }
    rewrite pretty_N_go_step by lia.
    etrans; [apply IH|simpl; lia].
    rewrite Nat2N.inj_succ, N.pow_succ_r' in Hx.
    apply N.Div0.div_lt_upper_bound. lia.
Qed.

Lemma pretty_Z_length (port : Z) :
  -100000000 < port < 1000000000 →
  (String.length (pretty port) ≤ 9)%nat.
Proof.
  intros Hport. destruct port as [|p|p]; [simpl; lia| |].
  - change (pretty (Z.pos p)) with (pretty (N.pos p)).
    unfold pretty, pretty_N. rewrite decide_False by done.
    apply (pretty_N_go_length 9 (N.pos p) EmptyString).
    change (10 ^ N.of_nat 9)%N with 1000000000%N.
    apply N2Z.inj_lt. simpl. lia.
  - change (pretty (Z.neg p)) with ("-" +:+ pretty (N.pos p)).
    unfold pretty, pretty_N. rewrite decide_False by done. simpl.
    pose proof (pretty_N_go_length 8 (N.pos p) EmptyString) as Hlen.
    change (10 ^ N.of_nat 8)%N with 100000000%N in Hlen.
    simpl in Hlen. apply le_n_S, Hlen, N2Z.inj_lt. simpl. lia.
Qed.

(** X14.  The service string handed to the resolver is the whole decimal
    port whenever the port has at most nine characters, that is from
    -99999999 to 999999999, so for every port a TCP endpoint can have:
    the 10-byte buffer of [snprintf] does not cut it. *)
Theorem portstr_of_port (port : Z) :
  -100000000 < port < 1000000000 → portstr_of port = pretty port.
Proof.
  intros Hport. unfold portstr_of.
  change (sprintf "%d" [ArgI port]) with (pretty port +:+ EmptyString).
  rewrite append_empty.
  by apply substring_short, pretty_Z_length.
Qed.

Lemma portstr_of_port_witness : portstr_of 8080 = "8080".
Proof. apply (portstr_of_port 8080). lia. Defined.

(** ** Reading and writing *)

Lemma tcp_serve_app (C : channel) (HAVE_SSL : bool) (tcp : tcp_t)
    (a b : list request) (x : wire) :
  tcp_serve C HAVE_SSL tcp (a ++ b) x
  = tcp_serve C HAVE_SSL tcp b (tcp_serve C HAVE_SSL tcp a x).
Proof.
  revert x. induction a as [|[buf n|buf n] a IH]; intros x; simpl; by
    rewrite ?IH.
Qed.

(** Every request makes exactly one transfer and leaves descriptors and
    sessions alone; which transfer depends on the session slot only. *)
Lemma tcp_serve_moved (C : channel) (HAVE_SSL : bool) (tcp : tcp_t)
    (reqs : list request) (x : wire) :
  let x' := tcp_serve C HAVE_SSL tcp reqs x in
  fds (kernel x') = fds (kernel x) ∧
  sessions (kernel x') = sessions (kernel x) ∧
  ∃ new, moved x' = moved x ++ new ∧ length new = length reqs ∧
    Forall (λ m, match (if HAVE_SSL then tcp_ssl tcp else None) with
                 | Some s => through s m.1 = true
                 | None => on_descriptor (tcp_fd tcp) m.1 = true
                 end) new.
Proof.
  revert x. induction reqs as [|req reqs IH]; intros x; simpl.
  { split_and!; [done|done|]. exists []. by rewrite app_nil_r. }
  assert (Hone : ∀ y, y = (match req with
                           | DoRead b n => (tcp_read C HAVE_SSL tcp b n x).2
                           | DoWrite b n => (tcp_write C HAVE_SSL tcp b n x).2
                           end) →
            fds (kernel y) = fds (kernel x) ∧
            sessions (kernel y) = sessions (kernel x) ∧
            ∃ m, moved y = moved x ++ [m] ∧
              match (if HAVE_SSL then tcp_ssl tcp else None) with
              | Some s => through s m.1 = true
              | None => on_descriptor (tcp_fd tcp) m.1 = true
              end).
  { intros y ->.
    unfold tcp_read, tcp_write, ssl_read, ssl_write, sys_read, sys_write.
    destruct req; repeat (case_match; simplify_eq/=);
      split_and!; try done; eexists; (split; [reflexivity|]); simpl;
      by apply bool_decide_eq_true. }
  destruct req as [b n|b n]; simpl;
    (edestruct Hone as (Hf1 & Hs1 & m & Hm1 & Hk1); [reflexivity|]);
    (edestruct IH as (Hf2 & Hs2 & new & Hm2 & Hlen & Hall));
    (split_and!; [by rewrite Hf2|by rewrite Hs2|]);
    exists (m :: new);
    (split_and!; [by rewrite Hm2, Hm1, <- app_assoc|simpl; by rewrite Hlen
                 |by constructor]).
Qed.

(** X8.  Reading or writing after [tcp_close] fails cleanly.  Once a
    connection whose descriptor was positive has been closed, [tcp_read]
    and [tcp_write] return -1 with [errno] EBADF; the one transfer each
    asks for is on descriptor -1, so neither the old descriptor nor the old
    TLS session is used, and the read buffer is left as it was. *)
Theorem tcp_io_after_close (C : channel) (HAVE_SSL : bool) (tcp : tcp_t)
    (w : world) (buffer : list Z) (size : Z) (log : list (transfer * Z)) :
  0 < tcp_fd tcp →
  let closed := tcp_close HAVE_SSL tcp w in
  let x := mk_wire closed.2 log in
  let rd := tcp_read C HAVE_SSL closed.1 buffer size x in
  let wr := tcp_write C HAVE_SSL closed.1 buffer size x in
  rd.1 = (-1, buffer) ∧
  errno (kernel rd.2) = EBADF ∧
  moved_since x rd.2 = [(RawRead (-1) size, -1)] ∧
  wr.1 = -1 ∧
  errno (kernel wr.2) = EBADF ∧
  moved_since x wr.2 = [(RawWrite (-1) (take (Z.to_nat size) buffer), -1)].
Proof.
  intros Hfd. apply Z.ltb_lt in Hfd.
  unfold tcp_close. rewrite Hfd.
  unfold tcp_read, tcp_write, sys_read, sys_write, moved_since.
  destruct HAVE_SSL, (tcp_ssl tcp) as [s|]; simpl.
  all: rewrite ?decide_False by (intros [? _]; lia); simpl.
  all: by rewrite !drop_app_length.
Qed.

Lemma tcp_io_after_close_witness :
  (tcp_read (mk_channel (λ _ _ _, inr [104; 105]) (λ _ _ _, inr 2)
               (λ _ _ _, inr [104; 105]) (λ _ _ _, 2)) true
     (tcp_close true (mk_tcp 3 AF_INET (Some 1%nat)) Scenario.secured).1
     [0; 0] 2
     (mk_wire
        (tcp_close true (mk_tcp 3 AF_INET (Some 1%nat)) Scenario.secured).2
        [])).1
  = (-1, [0; 0]).
Proof.
  apply (tcp_io_after_close
           (mk_channel (λ _ _ _, inr [104; 105]) (λ _ _ _, inr 2)
              (λ _ _ _, inr [104; 105]) (λ _ _ _, 2)) true
           (mk_tcp 3 AF_INET (Some 1%nat)) Scenario.secured [0; 0] 2 []).
  reflexivity.
Defined.

(** X9.  [tcp_close] on a connection without a session (or in a build
    without HAVE_SSL) whose descriptor is positive makes one call, the
    [close] of that descriptor: the descriptor table loses that descriptor
    and no other, the sessions are untouched, and [fd] becomes -1 whether
    or not [close] succeeded. *)
Theorem tcp_close_plain (HAVE_SSL : bool) (tcp : tcp_t) (w : world) :
  0 < tcp_fd tcp →
  HAVE_SSL = false ∨ tcp_ssl tcp = None →
  let closed := tcp_close HAVE_SSL tcp w in
  tcp_fd closed.1 = -1 ∧
  fds closed.2 = fds w ∖ {[tcp_fd tcp]} ∧
  sessions closed.2 = sessions w ∧
  ∃ ans, events_since w closed.2 = [Ev (Close (tcp_fd tcp)) ans].
Proof.
  intros Hfd Hplain. apply Z.ltb_lt in Hfd.
  unfold tcp_close. rewrite Hfd.
  assert (Hnone : (if HAVE_SSL then tcp_ssl tcp else None) = None).
  { destruct Hplain as [-> | ->]; [done|by destruct HAVE_SSL]. }
  rewrite Hnone. unfold sys_close, events_since, clock.
  destruct (decide (tcp_fd tcp ∈ fds w)) as [Hin|Hout]; simpl.
  - split_and!; try done. eexists. by rewrite drop_app_length.
  - split_and!; try done; [|eexists; by rewrite drop_app_length].
    apply set_eq. intros x.
    rewrite elem_of_difference, elem_of_singleton.
    split; [|by intros [? _]]. intros Hx. split; [done|]. by intros ->.
Qed.

Lemma tcp_close_plain_witness :
  fds (tcp_close false (mk_tcp 3 AF_INET None) Scenario.secured).2
  = {[0; 1; 2; 3]} ∖ {[3]}.
Proof.
  apply (tcp_close_plain false (mk_tcp 3 AF_INET None) Scenario.secured);
    [reflexivity|by left].
Defined.

(** X10.  What a connection that [tcp_connect] returned is served through.
    After a secure connect in a build with HAVE_SSL the record holds the
    live session of the handshake, and every later [tcp_read] and
    [tcp_write] goes through that session, none to the raw descriptor.
    After a plain connect on a record without a session, or in a build
    without HAVE_SSL, every one goes to the descriptor of the record, which
    is open. *)
Theorem tcp_connect_then_serve (fuel : nat) (E : environment)
    (HAVE_SSL : bool) (tcp : tcp_t) (hostname : string) (port secure : Z)
    (local_if : option string) (message : string) (io_timeout : Z)
    (w : world) (r : result) (C : channel) (reqs : list request)
    (log : list (transfer * Z)) :
  tcp_connect fuel E HAVE_SSL tcp hostname port secure local_if message
    io_timeout w = Some r →
  ret r = 1 →
  let x := mk_wire (world_after r) log in
  let served := moved_since x (tcp_serve C HAVE_SSL (tcp_after r) reqs x) in
  length served = length reqs ∧
  (HAVE_SSL = true → secure ≠ 0 →
   ∃ s, tcp_ssl (tcp_after r) = Some s ∧ s ∈ sessions (world_after r) ∧
        Forall (λ m, through s m.1 = true) served) ∧
  (HAVE_SSL = false ∨ (secure = 0 ∧ tcp_ssl tcp = None) →
   tcp_fd (tcp_after r) ∈ fds (world_after r) ∧
   Forall (λ m, on_descriptor (tcp_fd (tcp_after r)) m.1 = true) served).
Proof.
  intros Hrun Hret x served.
  destruct (tcp_serve_moved C HAVE_SSL (tcp_after r) reqs x)
    as (_ & _ & new & Hnew & Hlen & Hall).
  assert (Hserved : served = new).
  { unfold served, moved_since. by rewrite Hnew, drop_app_length. }
  rewrite Hserved. clear Hserved Hnew served.
  split; [done|].
  destruct (tcp_connect_success _ _ _ _ _ _ _ _ _ _ _ _ Hrun Hret)
    as (_ & _ & Hfds & _ & _ & _ & Hslot & _).
  split.
  - intros -> Hsec. apply Z.eqb_neq in Hsec. rewrite Hsec in Hslot.
    destruct Hslot as (s & Hs & Hlive). exists s. rewrite Hs in Hall.
    by split_and!.
  - intros Hplain. split; [rewrite Hfds; apply just_opened|].
    assert (Hnone : (if HAVE_SSL then tcp_ssl (tcp_after r) else None)
                    = None).
    { destruct Hplain as [->|[-> Hnone]]; [done|].
      rewrite andb_false_r in Hslot. rewrite Hslot, Hnone.
      by destruct HAVE_SSL. }
    by rewrite Hnone in Hall.
Qed.

(** ** Termination *)

(** X16.  If [socket] never fails, the candidate loop makes at most one
    turn per candidate: [tcp_connect] returns, and returns the same result,
    for every fuel that covers the number of resolved candidates. *)
Theorem tcp_connect_terminates (E : environment) (HAVE_SSL : bool)
    (tcp : tcp_t) (hostname : string) (port secure : Z)
    (local_if : option string) (message : string) (io_timeout : Z)
    (w : world) :
  (∀ t f ty p, socket_fault E t f ty p = None) →
  ∃ r, ∀ fuel,
    (match resolver E hostname (portstr_of port) (tcp_ai_family tcp)
             SOCK_STREAM AI_ADDRCONFIG 0 with
     | GaiFail _ => 0
     | GaiOk _ rest => S (length rest)
     end ≤ fuel)%nat →
    tcp_connect fuel E HAVE_SSL tcp hostname port secure local_if message
      io_timeout w = Some r.
Proof.
  intros Hsock. unfold tcp_connect.
  destruct (resolver E _ _ _ _ _ _) as [code|first rest]; [by eexists|].
  destruct (connect_loop_returns (S (length rest)) E local_if
              (local_addr_of E tcp local_if) io_timeout
              (mk_attempt (-1) (first :: rest) w) Hsock) as [st Hst];
    [done|].
  eexists. intros fuel Hfuel.
  replace fuel with (S (length rest) + (fuel - S (length rest)))%nat by lia.
  by rewrite (connect_loop_more_fuel _ _ _ _ _ _ _ _ Hst).
Qed.

Lemma tcp_connect_terminates_witness :
  ∃ r, ∀ fuel,
    (2 ≤ fuel)%nat →
    tcp_connect fuel Scenario.refusing false (Scenario.fresh_tcp AF_INET)
      "example.org" 80 0 None "" 5 Scenario.boot = Some r.
Proof.
  apply (tcp_connect_terminates Scenario.refusing false
           (Scenario.fresh_tcp AF_INET) "example.org" 80 0 None "" 5
           Scenario.boot).
  reflexivity.
Defined.

(** ** The further properties at work *)

Ltac run_concrete := vm_compute; reflexivity.

Lemma tcp_connect_in_resolver_order_witness :
  ∃ r,
    tcp_connect 2 Cases.picky false (Scenario.fresh_tcp AF_INET)
      "example.org" 80 0 None "" 5 Scenario.boot = Some r ∧
    connect_addrs (events_since Scenario.boot (world_after r))
      `sublist_of` [ai_addr (Scenario.v4 1); ai_addr (Scenario.v4 2)].
Proof.
  eexists. split; [run_concrete|].
  apply (tcp_connect_in_resolver_order 2 Cases.picky false
           (Scenario.fresh_tcp AF_INET) "example.org" 80 0 None "" 5
           Scenario.boot _ (Scenario.v4 1) [Scenario.v4 2]);
    [reflexivity|run_concrete].
Defined.

Lemma tcp_connect_success_state_witness :
  ∃ r,
    tcp_connect 2 Cases.picky false (Scenario.fresh_tcp AF_INET)
      "example.org" 80 0 None "" 5 Scenario.boot = Some r ∧
    tcp_fd (tcp_after r) ∈ fds (world_after r) ∧
    (tcp_fd (tcp_after r) ∉ nonblock (world_after r)).
Proof.
  eexists. split; [run_concrete|].
  match goal with
  | |- tcp_fd (tcp_after ?r) ∈ _ ∧ _ =>
      destruct (tcp_connect_success_state 2 Cases.picky false
                  (Scenario.fresh_tcp AF_INET) "example.org" 80 0 None ""
                  5 Scenario.boot r)
        as (_ & _ & Hopen & Hblock & _); [run_concrete|reflexivity|]
  end.
  split; [exact Hopen|exact Hblock].
Defined.

Lemma tcp_connect_unbound_witness :
  ∃ r,
    tcp_connect 2 Cases.picky false (Scenario.fresh_tcp AF_INET)
      "example.org" 80 0 (Some "") "" 5 Scenario.boot = Some r ∧
    free_of is_bind (events_since Scenario.boot (world_after r)).
Proof.
  eexists. split; [run_concrete|].
  apply (tcp_connect_unbound 2 Cases.picky false
           (Scenario.fresh_tcp AF_INET) "example.org" 80 0 (Some "") "" 5
           Scenario.boot); [reflexivity|run_concrete].
Defined.

Lemma tcp_connect_binds_supplied_witness :
  ∃ r,
    tcp_connect 1 Scenario.calm false (Scenario.fresh_tcp AF_INET)
      "example.org" 80 0 (Some "192.168.1.5") "" 0 Scenario.boot = Some r ∧
    binds_to (mk_sockaddr_in AF_INET 0 Scenario.lan_address)
      (events_since Scenario.boot (world_after r)).
Proof.
  eexists. split; [run_concrete|].
  apply (tcp_connect_binds_supplied 1 Scenario.calm false
           (Scenario.fresh_tcp AF_INET) "example.org" 80 0 "192.168.1.5" ""
           0 Scenario.boot); [reflexivity|run_concrete].
Defined.

Lemma tcp_connect_plain_witness :
  ∃ r,
    tcp_connect 2 Cases.picky true (Scenario.fresh_tcp AF_INET)
      "example.org" 80 0 None "" 5 Scenario.boot = Some r ∧
    tcp_ssl (tcp_after r) = None.
Proof.
  eexists. split; [run_concrete|].
  match goal with
  | |- tcp_ssl (tcp_after ?r) = _ =>
      destruct (tcp_connect_plain 2 Cases.picky true
                  (Scenario.fresh_tcp AF_INET) "example.org" 80 0 None ""
                  5 Scenario.boot r)
        as (_ & Hslot & _); [by right|run_concrete|exact Hslot]
  end.
Defined.

Lemma tcp_connect_frame_witness :
  ∃ r,
    tcp_connect 2 Cases.picky false (Scenario.fresh_tcp AF_INET)
      "example.org" 80 0 None "" 5 Scenario.boot = Some r ∧
    2 ∈ fds (world_after r).
Proof.
  eexists. split; [run_concrete|].
  match goal with
  | |- 2 ∈ fds (world_after ?r) =>
      destruct (tcp_connect_frame 2 Cases.picky false
                  (Scenario.fresh_tcp AF_INET) "example.org" 80 0 None ""
                  5 Scenario.boot r 2)
        as [Hopen _]; [run_concrete|by vm_compute|exact Hopen]
  end.
Defined.

Lemma tcp_connect_handshake_failure_witness :
  ∃ r,
    tcp_connect 1 Scenario.untrusted true (Scenario.fresh_tcp AF_INET)
      "example.org" 443 1 None "" 5 Scenario.boot = Some r ∧
    ret r = -1 ∧
    fds (world_after r) = fds Scenario.boot.
Proof.
  eexists. split; [run_concrete|].
  match goal with
  | |- ret ?r = _ ∧ _ =>
      destruct (tcp_connect_handshake_failure 1 Scenario.untrusted true
                  (Scenario.fresh_tcp AF_INET) "example.org" 443 1 None ""
                  5 Scenario.boot r 3 "example.org")
        as (Hret & _ & Hfds & _); [run_concrete| |]
  end.
  - vm_compute. repeat first [apply list_elem_of_here
                             |apply list_elem_of_further].
  - split; [exact Hret|exact Hfds].
Defined.

Lemma tcp_connect_then_serve_witness :
  ∃ r,
    tcp_connect 1 Scenario.calm true (Scenario.fresh_tcp AF_INET)
      "example.org" 443 1 None "" 5 Scenario.boot = Some r ∧
    ∃ s, tcp_ssl (tcp_after r) = Some s ∧
         Forall (λ m, through s m.1 = true)
           (moved_since (mk_wire (world_after r) [])
              (tcp_serve Cases.chatty true (tcp_after r)
                 [DoWrite [71; 69; 84] 3; DoRead [0; 0] 2]
                 (mk_wire (world_after r) []))).
Proof.
  eexists. split; [run_concrete|].
  match goal with
  | |- ∃ s, tcp_ssl (tcp_after ?r) = _ ∧ _ =>
      destruct (tcp_connect_then_serve 1 Scenario.calm true
                  (Scenario.fresh_tcp AF_INET) "example.org" 443 1 None ""
                  5 Scenario.boot r Cases.chatty
                  [DoWrite [71; 69; 84] 3; DoRead [0; 0] 2] [])
        as (_ & Hsecure & _); [run_concrete|reflexivity|]
  end.
  destruct Hsecure as (s & Hs & _ & Hall); [reflexivity|discriminate|].
  exists s. split; [exact Hs|exact Hall].
Defined.
